(** * Horizon hub: handshake, registration bookkeeping, broadcaster, pool

    A shallow embedding of
      - pkg/hub/hub.go            ([Hub.handleConn]),
      - pkg/hub (inbound server)  ([InboundServer.checkValidToken],
                                   [AddServices], [AddLabeLink]),
      - pkg/control (broadcast)   ([Broadcaster.AdvertiseServices],
                                   [GRPCDial.Dial]),
    followed by the properties of these functions.

    Conventions.  A Go [error] value is an [option error] ([None] is
    [nil]); a Go pair [(v, err)] is a [result].  Calls that leave the
    process (network, control plane, clock) are answered by an
    environment, and every such call is appended to a log so that
    "an attempt was made" is a statement about the log. *)

From stdpp Require Import gmap strings list fin_maps.
From Stdlib Require Import ZArith Lia.

Set Warnings "-register-all,-clear-no-such-hyp".
Local Open Scope string_scope.
Local Open Scope list_scope.

(* ===================================================================== *)
(** * Part I: definitions                                                 *)
(* ===================================================================== *)

(** ** Errors and results *)

(** Go error values.  [ErrNew] is [errors.New]/[fmt.Errorf], [ErrWrapf]
    is [errors.Wrapf], [ErrMulti] is go-multierror's [*multierror.Error]
    with its [Errors] slice. *)
Inductive error : Type :=
| ErrNew (msg : string)
| ErrWrapf (cause : error) (msg : string)
| ErrMulti (errs : list error).

Inductive result (A : Type) : Type :=
| Ok (a : A)
| Err (e : error).
Arguments Ok {A} a.
Arguments Err {A} e.

(** go-multierror flattens a [*multierror.Error] argument into its
    elements and keeps any other error as one element. *)
Definition multierror_flatten (e : error) : list error :=
  match e with
  | ErrMulti errs => errs
  | _ => [e]
  end.

(** [multierror.Append(err, e)]: the result is always a non-nil
    [*multierror.Error]; a nil first argument starts a new list. *)
Definition multierror_Append (err : option error) (e : error) : error :=
  ErrMulti (match err with
            | None => []
            | Some top => multierror_flatten top
            end ++ multierror_flatten e).

(** ** Wire and token data (package pb, package token) *)

Module pb.

(** Modelled from the spec: [pb.ULID] is declared outside src/; the
    code here only renders it with [SpecString]. *)
Record ULID : Type := { SpecString : string }.

(** Modelled from the spec: the token role enumeration ("a role, e.g.
    CONTROL, AGENT") is declared outside src/. *)
Inductive Role : Type := CONTROL | AGENT | ROLE (code : Z).

Definition Role_eqb (a b : Role) : bool :=
  match a, b with
  | CONTROL, CONTROL => true
  | AGENT, AGENT => true
  | ROLE x, ROLE y => Z.eqb x y
  | _, _ => false
  end.

Definition Role_String (r : Role) : string :=
  match r with
  | CONTROL => "CONTROL"
  | AGENT => "AGENT"
  | ROLE _ => "ROLE"
  end.

Record Account : Type := { Namespace : string; AccountId : ULID }.

Record ServiceInfo : Type :=
  { ServiceId : ULID;
    Type_ : string;
    Labels : list string;
    Metadata : list (string * string) }.

Record Preamble : Type :=
  { Token : string;
    SessionId : string;
    Services : list ServiceInfo }.

Record Timestamp : Type := { Sec : Z; Nsec : Z }.

Record Confirmation : Type :=
  { Time : option Timestamp;
    Status : string }.

Record ServiceRequest : Type :=
  { sr_Account : Account;
    sr_Hub : ULID;
    sr_Id : ULID;
    sr_Type : string;
    sr_Labels : list string;
    sr_Metadata : list (string * string) }.

(** Opaque payloads of the control-plane calls. *)
Record AccountServices : Type := { as_payload : string }.
Record LabelLinks : Type := { ll_payload : string }.
Inductive Noop : Type := MkNoop.

End pb.

Module token.

(** Modelled from the spec: package token is outside src/.  A token
    body carries "an account namespace/id, a role and a set of
    capability strings". *)
Record TokenBody : Type :=
  { Role : pb.Role;
    Account : pb.Account;
    Capabilities : list string }.

Record ValidToken : Type := { Body : TokenBody }.

Definition AccountNamespace (vt : ValidToken) : string :=
  pb.Namespace (Account (Body vt)).

Definition AccountId (vt : ValidToken) : pb.ULID :=
  pb.AccountId (Account (Body vt)).

(** Modelled from the spec: "Exposes HasCapability(name) -> bool". *)
Definition HasCapability (vt : ValidToken) (name : string) : bool :=
  bool_decide (name ∈ Capabilities (Body vt)).

(** The signature check itself is a parameter of everything below:
    [CheckTokenED25519 stoken pub]. *)
Class Verifier : Type :=
  { PublicKey : Type;
    CheckTokenED25519 : string → PublicKey → result ValidToken }.

End token.

(** ** Package control: broadcaster and connection pool *)

Module control.

(** A [*grpc.ClientConn] is a pointer; only its identity matters. *)
Record ClientConn : Type := { cc_id : nat }.

(** [pb.NewHubServicesClient(cc)] wraps the connection in a stub. *)
Record GrpcHubServicesClient : Type := NewHubServicesClient { client_cc : ClientConn }.

(** *** Broadcaster *)

(** The two indirections of the Broadcaster struct ([catalog] and
    [conn]) and the one client method it calls.  [W] is the state of
    everything outside the broadcaster (catalog, network, peers), [C]
    the client type ([pb.HubServicesClient] is an interface). *)
Record Broadcaster (W C : Type) : Type :=
  { catalog_Targets : W → list string * W;
    conn : string → W → result C * W;
    client_AddServices : C → pb.AccountServices → W → option error * W }.
Arguments catalog_Targets {W C} _ _.
Arguments conn {W C} _ _ _.
Arguments client_AddServices {W C} _ _ _ _.

Inductive BEvent (C : Type) : Type :=
| EvInfo (msg : string)
| EvConn (tgt : string) (r : result C)
| EvAddServices (tgt : string) (client : C) (r : option error).
Arguments EvInfo {C} msg.
Arguments EvConn {C} tgt r.
Arguments EvAddServices {C} tgt client r.

Section Broadcast.
Context {W C : Type} (b : Broadcaster W C).

(** The body of [for _, tgt := range targets], threading the outside
    state and [topError], and returning the calls it made. *)
Fixpoint advertise_loop (as_ : pb.AccountServices) (targets : list string)
    (topError : option error) (w : W) : option error * W * list (BEvent C) :=
  match targets with
  | [] => (topError, w, [])
  | tgt :: rest =>
      let '(r, w1) := conn b tgt w in
      match r with
      | Err err =>
          let '(res, w', evs) :=
            advertise_loop as_ rest (Some (multierror_Append topError err)) w1 in
          (res, w', EvInfo "broadcasting hub update" :: EvConn tgt r :: evs)
      | Ok client =>
          let '(e, w2) := client_AddServices b client as_ w1 in
          let topError' :=
            match e with
            | Some err => Some (multierror_Append topError err)
            | None => topError
            end in
          let '(res, w', evs) := advertise_loop as_ rest topError' w2 in
          (res, w',
           EvInfo "broadcasting hub update" :: EvConn tgt r
             :: EvAddServices tgt client e :: evs)
      end
  end.

Definition AdvertiseServices (as_ : pb.AccountServices) (w : W)
    : option error * W * list (BEvent C) :=
  let '(targets, w0) := catalog_Targets b w in
  let '(res, w', evs) := advertise_loop as_ targets None w0 in
  (res, w', EvInfo "hub broadcasting beginning" :: evs).
End Broadcast.

(** Readings of a broadcast log. *)
Definition conn_attempts {C} (evs : list (BEvent C)) : list string :=
  omap (λ ev, match ev with EvConn tgt _ => Some tgt | _ => None end) evs.

Definition delivered {C} (evs : list (BEvent C)) : list string :=
  omap (λ ev, match ev with EvAddServices tgt _ None => Some tgt | _ => None end) evs.

Definition failures {C} (evs : list (BEvent C)) : list error :=
  omap (λ ev, match ev with
              | EvConn _ (Err e) => Some e
              | EvAddServices _ _ (Some e) => Some e
              | _ => None
              end) evs.

(** The elements a [topError] already holds. *)
Definition flat_top (top : option error) : list error :=
  match top with
  | None => []
  | Some e => multierror_flatten e
  end.

(** *** GRPCDial, the connection pool *)

Record tls_Config : Type := { RootCAs : option (list string) }.

Inductive DialOption : Type :=
| WithDefaultCallOptions_UseCompressor (name : string)
| WithPerRPCCredentials (tok : string)
| WithTransportCredentials (creds : tls_Config).

Definition lz4_Name : string := "lz4".

Record GRPCDial : Type :=
  { g_token : string;
    g_cert : option string;
    grpcConns : gmap string ClientConn;
    tlscfg : tls_Config }.

(** [NewGRPCDial]; [parse] is [utils.ParseCertificate]. *)
Definition NewGRPCDial (parse : string → result string)
    (tok : string) (cert : option string) : result GRPCDial :=
  match cert with
  | None =>
      Ok {| g_token := tok; g_cert := None; grpcConns := ∅;
            tlscfg := {| RootCAs := None |} |}
  | Some c =>
      match parse c with
      | Err err => Err err
      | Ok parsedHubCert =>
          Ok {| g_token := tok; g_cert := cert; grpcConns := ∅;
                tlscfg := {| RootCAs := Some [parsedHubCert] |} |}
      end
  end.

Definition dialOpts (g : GRPCDial) : list DialOption :=
  [WithDefaultCallOptions_UseCompressor lz4_Name]
    ++ (if String.eqb (g_token g) "" then [] else [WithPerRPCCredentials (g_token g)])
    ++ [WithTransportCredentials (tlscfg g)].

Definition store (g : GRPCDial) (target : string) (cc : ClientConn) : GRPCDial :=
  {| g_token := g_token g; g_cert := g_cert g;
     grpcConns := <[target := cc]> (grpcConns g);
     tlscfg := tlscfg g |}.

Inductive DialEvent : Type :=
| EvGrpcDial (target : string) (opts : list DialOption) (r : result ClientConn).

Section Dial.
Context {W : Type} (grpc_Dial : string → list DialOption → W → result ClientConn * W).

(** [GRPCDial.Dial] run by one caller at a time: the lock operations
    are then no-ops and are left as comments. *)
Definition Dial (g : GRPCDial) (target : string) (w : W)
    : result GrpcHubServicesClient * GRPCDial * W * list DialEvent :=
  (* g.mu.RLock(); cc, ok := g.grpcConns[target]; g.mu.RUnlock() *)
  match grpcConns g !! target with
  | Some cc => (Ok (NewHubServicesClient cc), g, w, [])
  | None =>
      (* g.mu.Lock(); defer g.mu.Unlock(); check again *)
      match grpcConns g !! target with
      | Some cc => (Ok (NewHubServicesClient cc), g, w, [])
      | None =>
          let opts := dialOpts g in
          let '(r, w') := grpc_Dial target opts w in
          match r with
          | Err err => (Err err, g, w', [EvGrpcDial target opts r])
          | Ok cc =>
              (Ok (NewHubServicesClient cc), store g target cc, w',
               [EvGrpcDial target opts r])
          end
      end
  end.
End Dial.

End control.


(** ** Package hub *)

Module hub.
Import token.

Definition ErrProtocolError : error := ErrNew "protocol error".
Definition ErrWrongService : error := ErrNew "wrong service".
Definition ErrBadControlToken : error := ErrNew "bad control token".

(** [io.EOF]; the test [err == io.EOF] compares against this value. *)
Definition io_EOF : error := ErrNew "EOF".

Definition is_EOF (e : error) : bool :=
  match e with
  | ErrNew msg => String.eqb msg "EOF"
  | _ => false
  end.

(** *** The inbound control-plane server *)

(** gRPC metadata: a map from header name to its list of values.
    [metadata.FromIncomingContext] yields [(md, ok)]: a context without
    metadata is [None]. *)
Definition context : Type := option (gmap string (list string)).

(** The part of [control.Client] the inbound server uses.  [W] is the
    client's mutable state (its recent services and label links). *)
Record InboundServer `{Verifier} (W : Type) : Type :=
  { Client_TokenPub : PublicKey;
    Client_AddRecentAccountServices : pb.AccountServices → W → option error * W;
    Client_AddRecentLabelLinks : pb.LabelLinks → W → option error * W }.
Arguments Client_TokenPub {_ W} _.
Arguments Client_AddRecentAccountServices {_ W} _ _ _.
Arguments Client_AddRecentLabelLinks {_ W} _ _ _.

Inductive IEvent : Type :=
| EvDump (e : error)
| EvAddRecentAccountServices (services : pb.AccountServices) (r : option error)
| EvAddRecentLabelLinks (labels : pb.LabelLinks) (r : option error).

Section Inbound.
Context `{Verifier} {W : Type} (i : InboundServer W).

Definition checkValidToken (ctx : context) : option error :=
  match ctx with
  | None => Some ErrBadControlToken                    (* !ok *)
  | Some md =>
      let auth := default [] (md !! "authorization") in
      match auth with
      | [] => Some ErrBadControlToken                  (* len(auth) < 1 *)
      | auth0 :: _ =>
          match CheckTokenED25519 auth0 (Client_TokenPub i) with
          | Err err => Some err
          | Ok tok =>
              if negb (pb.Role_eqb (Role (Body tok)) pb.CONTROL)
              then Some (ErrWrapf ErrBadControlToken
                           ("role was: " +:+ pb.Role_String (Role (Body tok))))
              else None
          end
      end
  end.

(** Both handlers return the Go pair of a [pb.Noop] pointer ([None] is
    nil) and an error, the client
    state after the call and the calls made on the client. *)
Definition AddServices (ctx : context) (services : pb.AccountServices) (w : W)
    : (option pb.Noop * option error) * W * list IEvent :=
  match checkValidToken ctx with
  | Some err => ((None, Some err), w, [EvDump err])
  | None =>
      let '(err, w') := Client_AddRecentAccountServices i services w in
      ((Some pb.MkNoop, err), w', [EvAddRecentAccountServices services err])
  end.

Definition AddLabeLink (ctx : context) (labels : pb.LabelLinks) (w : W)
    : (option pb.Noop * option error) * W * list IEvent :=
  match checkValidToken ctx with
  | Some err => ((None, Some err), w, [])
  | None =>
      let '(err, w') := Client_AddRecentLabelLinks i labels w in
      ((Some pb.MkNoop, None), w', [EvAddRecentLabelLinks labels err])
  end.
End Inbound.

(** Calls that change the client's state. *)
Definition mutations (evs : list IEvent) : list IEvent :=
  List.filter (λ ev, match ev with EvDump _ => false | _ => true end) evs.

(** *** The tunnel handshake: [Hub.handleConn] *)

(** A [*yamux.Session] and a [*yamux.Stream] are pointers. *)
Record Session : Type := { sess_id : nat }.
Record Stream : Type := { StreamID : nat }.

(** The immutable part of [Hub]: [id] and the token key of [cc]; the
    [active] map lives in the state [St] below. *)
Record Hub `{Verifier} : Type :=
  { id : pb.ULID;
    cc_TokenPub : PublicKey }.

Inductive Level : Type := LError | LInfo | LTrace.

(** Framing buffers that are recycled. *)
Inductive Buf : Type :=
| ConnReader
| ConnWriter
| StreamReader (s : Stream)
| StreamWriter (s : Stream).

(** What one run of [handleConn] does to the outside, in order. *)
Inductive Event : Type :=
| EvLog (lvl : Level) (msg : string)
| EvRecycle (b : Buf)
| EvWriteMarshal (tag : Z) (wc : pb.Confirmation) (r : option error)
| EvAddService (req : pb.ServiceRequest) (r : option error)
| EvRemoveService (req : pb.ServiceRequest) (r : option error)
| EvSessClose (sess : Session)
| EvConnClose
| EvGo (stream : Stream).

(** The [defer] statements of [handleConn], with the variables their
    closures capture. *)
Inductive Deferred : Type :=
| DConnClose
| DRecycle (b : Buf)
| DRemoveServices (vt : ValidToken) (services : list pb.ServiceInfo)
| DSessClose (sess : Session)
| DDeleteActive (services : list pb.ServiceInfo).

(** The answers of the outside world during one run of [handleConn]:
    the peer, the clock, the control plane, yamux, and the other
    connection handlers that update [h.active] while this one blocks in
    [AcceptStream].  Calls made in a loop are indexed by iteration. *)
Record ConnScript : Type :=
  { s_NewFramingReader : option error;
    s_ReadMarshal : result (Z * pb.Preamble);
    s_Now : Z * Z;
    s_NewFramingWriter : option error;
    s_AddService : nat → pb.ServiceRequest → option error;
    s_RemoveService : nat → pb.ServiceRequest → option error;
    s_WriteMarshal : Z → pb.Confirmation → option error;
    s_yamux_Server : result Session;
    s_others : nat → gmap string Session → gmap string Session;
    s_AcceptStream : nat → result Stream;
    s_NewStreamReader : nat → option error;
    s_NewStreamWriter : nat → option error }.

Record St : Type :=
  { active : gmap string Session;
    log : list Event;
    defers : list Deferred }.

Definition init_St (act : gmap string Session) : St :=
  {| active := act; log := []; defers := [] |}.

Definition set_active (f : gmap string Session → gmap string Session) (st : St) : St :=
  {| active := f (active st); log := log st; defers := defers st |}.

Definition emit_St (ev : Event) (st : St) : St :=
  {| active := active st; log := log st ++ [ev]; defers := defers st |}.

Definition defer_St (d : Deferred) (st : St) : St :=
  {| active := active st; log := log st; defers := d :: defers st |}.

(** Code that may execute [return]: [None] is "the function returned". *)
Definition M (A : Type) : Type := St → option A * St.

Definition ret {A} (a : A) : M A := λ st, (Some a, st).
Definition return_ {A} : M A := λ st, (None, st).
Definition bind {A B} (c : M A) (k : A → M B) : M B :=
  λ st, match c st with
        | (Some a, st') => k a st'
        | (None, st') => (None, st')
        end.
Definition emit (ev : Event) : M unit := λ st, (Some tt, emit_St ev st).
Definition defer (d : Deferred) : M unit := λ st, (Some tt, defer_St d st).
Definition modify_active (f : gmap string Session → gmap string Session) : M unit :=
  λ st, (Some tt, set_active f st).

Notation "c1 ;; c2" := (bind c1 (λ _, c2)) (at level 100, right associativity).

Definition L_Error (msg : string) : M unit := emit (EvLog LError msg).

Definition uint64 (z : Z) : Z := (z mod 2 ^ 64)%Z.

Definition with_Status (wc : pb.Confirmation) (status : string) : pb.Confirmation :=
  {| pb.Time := pb.Time wc; pb.Status := status |}.

Section HandleConn.
Context `{Verifier} (h : Hub) (sc : ConnScript).

Definition ValidateToken (stoken : string) : result ValidToken :=
  CheckTokenED25519 stoken (cc_TokenPub h).

Definition ServiceRequest_of (vt : ValidToken) (serv : pb.ServiceInfo) : pb.ServiceRequest :=
  {| pb.sr_Account := {| pb.Namespace := AccountNamespace vt;
                         pb.AccountId := AccountId vt |};
     pb.sr_Hub := id h;
     pb.sr_Id := pb.ServiceId serv;
     pb.sr_Type := pb.Type_ serv;
     pb.sr_Labels := pb.Labels serv;
     pb.sr_Metadata := pb.Metadata serv |}.

(** [fw.WriteMarshal(1, &wc)] followed by the logging of its error. *)
Definition WriteMarshal (tag : Z) (wc : pb.Confirmation) : M (option error) :=
  let err := s_WriteMarshal sc tag wc in
  emit (EvWriteMarshal tag wc err) ;;
  match err with
  | Some _ => L_Error "error marshaling confirmation" ;; ret err
  | None => ret err
  end.

(** The registration loop, lines 188-205; [k] is the iteration index. *)
Fixpoint addServices (vt : ValidToken) (k : nat) (services : list pb.ServiceInfo) : M unit :=
  match services with
  | [] => ret tt
  | serv :: rest =>
      let req := ServiceRequest_of vt serv in
      let err := s_AddService sc k req in
      emit (EvAddService req err) ;;
      match err with
      | Some _ => L_Error "error adding services" ;; return_
      | None => addServices vt (S k) rest
      end
  end.

(** Which answers of the control plane the registration loop meets:
    every [AddService] succeeds, or the one for service [j] is the first
    to fail. *)
Definition all_registered (vt : ValidToken) (services : list pb.ServiceInfo) : Prop :=
  ∀ j serv, services !! j = Some serv →
    s_AddService sc j (ServiceRequest_of vt serv) = None.

Definition first_failure (vt : ValidToken) (services : list pb.ServiceInfo) (j : nat) : Prop :=
  ∃ serv e,
    services !! j = Some serv
    ∧ s_AddService sc j (ServiceRequest_of vt serv) = Some e
    ∧ ∀ j' serv', j' < j → services !! j' = Some serv' →
        s_AddService sc j' (ServiceRequest_of vt serv') = None.

(** The deferred deregistration loop, lines 207-226: it has no [return]. *)
Fixpoint removeServices (vt : ValidToken) (k : nat) (services : list pb.ServiceInfo)
    (st : St) : St :=
  match services with
  | [] => st
  | serv :: rest =>
      let req := ServiceRequest_of vt serv in
      let err := s_RemoveService sc k req in
      let st1 := emit_St (EvRemoveService req err) st in
      let st2 := match err with
                 | Some _ => emit_St (EvLog LError "error removing service") st1
                 | None => st1
                 end in
      removeServices vt (S k) rest st2
  end.

(** [h.active[serv.ServiceId.SpecString()] = sess] for every service. *)
Fixpoint insertActive (sess : Session) (services : list pb.ServiceInfo)
    (m : gmap string Session) : gmap string Session :=
  match services with
  | [] => m
  | serv :: rest =>
      insertActive sess rest (<[pb.SpecString (pb.ServiceId serv) := sess]> m)
  end.

(** [delete(h.active, serv.ServiceId.SpecString())] for every service. *)
Fixpoint deleteActive (services : list pb.ServiceInfo)
    (m : gmap string Session) : gmap string Session :=
  match services with
  | [] => m
  | serv :: rest => deleteActive rest (delete (pb.SpecString (pb.ServiceId serv)) m)
  end.

(** [handleConn], lines 188-262: from the registration loop up to the
    accept loop (the states Registering and Active of the handshake). *)
Definition registering (preamble : pb.Preamble) (vt : ValidToken) (wc : pb.Confirmation)
    : M (pb.Preamble * ValidToken * Session) :=
  addServices vt 0 (pb.Services preamble) ;;
  defer (DRemoveServices vt (pb.Services preamble)) ;;
  bind (WriteMarshal 1 wc) (λ err,
  match err with
  | Some _ => return_
  | None =>
  emit (EvRecycle ConnWriter) ;;
  match s_yamux_Server sc with
  | Err _ => L_Error "error configuring yamux session" ;; return_
  | Ok sess =>
  defer (DSessClose sess) ;;
  modify_active (insertActive sess (pb.Services preamble)) ;;
  defer (DDeleteActive (pb.Services preamble)) ;;
  ret (preamble, vt, sess)
  end end).

(** [handleConn] from its first line up to the accept loop.  [Some] is
    "reached the accept loop" (the session is Active); [None] is an
    executed [return]. *)
Definition handshake : M (pb.Preamble * ValidToken * Session) :=
  defer DConnClose ;;
  match s_NewFramingReader sc with
  | Some _ => L_Error "error creating frame reader" ;; return_
  | None =>
  defer (DRecycle ConnReader) ;;
  match s_ReadMarshal sc with
  | Err _ => L_Error "error decoding preamble" ;; return_
  | Ok (tag, preamble) =>
  if negb (tag =? 1)%Z
  then L_Error "protocol error detected in preamble" ;; return_
  else
  let ts := s_Now sc in
  let wc := {| pb.Time := Some {| pb.Sec := uint64 (fst ts); pb.Nsec := uint64 (snd ts) |};
               pb.Status := "connected" |} in
  match s_NewFramingWriter sc with
  | Some _ => L_Error "error creating frame writer" ;; return_
  | None =>
  emit (EvRecycle ConnWriter) ;;
  match ValidateToken (pb.Token preamble) with
  | Err _ =>
      L_Error "invalid token recieved" ;;
      WriteMarshal 1 (with_Status wc "bad-token") ;;
      return_
  | Ok vt =>
  (if (0 <? length (pb.Services preamble))%nat
   then if negb (HasCapability vt "hzn:serve")
        then WriteMarshal 1 (with_Status wc "bad-token-capability") ;; return_
        else ret tt
   else ret tt) ;;
  registering preamble vt wc
  end end end end.

(** The accept loop, lines 264-299.  [fuel] bounds the iterations that
    are simulated: [None] means the session is still being served. *)
Fixpoint acceptLoop (fuel : nat) (i : nat) (st : St) : option St :=
  match fuel with
  | O => None
  | S fuel' =>
      let st := set_active (s_others sc i) st in
      match s_AcceptStream sc i with
      | Err err =>
          Some (emit_St (if is_EOF err
                         then EvLog LInfo "agent disconnected"
                         else EvLog LError "error accepting new yamux session") st)
      | Ok stream =>
          let st := emit_St (EvLog LTrace "stream accepted") st in
          match s_NewStreamReader sc i with
          | Some _ =>
              acceptLoop fuel' (S i)
                (emit_St (EvLog LError "error creating frame reader") st)
          | None =>
              let st := defer_St (DRecycle (StreamReader stream)) st in
              match s_NewStreamWriter sc i with
              | Some _ =>
                  acceptLoop fuel' (S i)
                    (emit_St (EvLog LError "error creating framing writer") st)
              | None =>
                  let st := defer_St (DRecycle (StreamWriter stream)) st in
                  let st := emit_St (EvLog LTrace "accepted yamux session") st in
                  acceptLoop fuel' (S i) (emit_St (EvGo stream) st)
              end
          end
      end
  end.

(** Running the deferred calls when the function returns, last first. *)
Definition run_deferred (d : Deferred) (st : St) : St :=
  match d with
  | DConnClose => emit_St EvConnClose st
  | DRecycle b => emit_St (EvRecycle b) st
  | DRemoveServices vt services => removeServices vt 0 services st
  | DSessClose sess => emit_St (EvSessClose sess) st
  | DDeleteActive services => set_active (deleteActive services) st
  end.

Fixpoint run_defers (ds : list Deferred) (st : St) : St :=
  match ds with
  | [] => st
  | d :: rest => run_defers rest (run_deferred d st)
  end.

Definition exit (st : St) : St :=
  run_defers (defers st)
    {| active := active st; log := log st; defers := [] |}.

(** What the pending deferred calls will do on return: the services
    they deregister and the keys they delete from the active map. *)
Fixpoint deferred_removals (ds : list Deferred) : list pb.ServiceRequest :=
  match ds with
  | [] => []
  | DRemoveServices vt services :: rest =>
      map (ServiceRequest_of vt) services ++ deferred_removals rest
  | _ :: rest => deferred_removals rest
  end.

Fixpoint deferred_deletes (ds : list Deferred) (m : gmap string Session)
    : gmap string Session :=
  match ds with
  | [] => m
  | DDeleteActive services :: rest => deferred_deletes rest (deleteActive services m)
  | _ :: rest => deferred_deletes rest m
  end.

(** One run of [handleConn] from an active map [act]: the state when it
    has returned, or [None] while the session is still served. *)
Definition handleConn (fuel : nat) (act : gmap string Session) : option St :=
  match handshake (init_St act) with
  | (None, st1) => Some (exit st1)
  | (Some _, st1) =>
      match acceptLoop fuel 0 st1 with
      | None => None
      | Some st2 => Some (exit st2)
      end
  end.
End HandleConn.

(** Readings of a connection log. *)
Definition confirmations (evs : list Event) : list pb.Confirmation :=
  omap (λ ev, match ev with EvWriteMarshal _ wc _ => Some wc | _ => None end) evs.

Definition add_attempts (evs : list Event) : list pb.ServiceRequest :=
  omap (λ ev, match ev with EvAddService req _ => Some req | _ => None end) evs.

Definition registered (evs : list Event) : list pb.ServiceRequest :=
  omap (λ ev, match ev with EvAddService req None => Some req | _ => None end) evs.

Definition remove_attempts (evs : list Event) : list pb.ServiceRequest :=
  omap (λ ev, match ev with EvRemoveService req _ => Some req | _ => None end) evs.

(** Events that are neither a Confirmation nor a (de)registration. *)
Definition quiet (evs : list Event) : Prop :=
  confirmations evs = [] ∧ add_attempts evs = []
  ∧ registered evs = [] ∧ remove_attempts evs = [].

(** Deferred calls that only release a resource. *)
Definition is_plain (d : Deferred) : Prop :=
  match d with DConnClose | DRecycle _ => True | _ => False end.

Definition service_keys (services : list pb.ServiceInfo) : list string :=
  map (λ serv, pb.SpecString (pb.ServiceId serv)) services.

(** The status the handshake rules prescribe, in the words of the
    specification: "bad-token" when validation fails,
    "bad-token-capability" when the token is valid, one or more services
    are advertised and the capability is missing, "connected" otherwise. *)
Definition spec_status (v : result ValidToken) (services : list pb.ServiceInfo) : string :=
  match v with
  | Err _ => "bad-token"
  | Ok vt =>
      if bool_decide (services ≠ []) && negb (HasCapability vt "hzn:serve")
      then "bad-token-capability"
      else "connected"
  end.

End hub.


(** ** Concurrent callers of [GRPCDial.Dial] *)

(** Several goroutines call [Dial] on one pool.  Each statement of
    [Dial] that touches the mutex, the map or the network is one atomic
    step of its caller; steps of different callers interleave in any
    order.  The [sync.RWMutex] is modelled by who holds it: [RLock]
    waits while a writer holds the mutex, [Lock] waits while anyone
    holds it.  (Go also makes new readers queue behind a waiting writer;
    that removes interleavings and adds none.) *)

Module race.
Import control.

(** Where a caller is inside [Dial]; the comment gives the statement it
    executes next. *)
Inductive pc : Type :=
| PRLock                                     (* g.mu.RLock() *)
| PRead                                      (* cc, ok := g.grpcConns[target] *)
| PRUnlock (r : option ClientConn)           (* g.mu.RUnlock(); if ok { return } *)
| PLock                                      (* g.mu.Lock(); defer g.mu.Unlock() *)
| PRecheck                                   (* cc, ok = g.grpcConns[target]; if ok { return } *)
| PDial                                      (* cc, err := grpc.Dial(...); if err != nil { return } *)
| PStore (cc : ClientConn)                   (* g.grpcConns[target] = cc; return *)
| PUnlock (r : result GrpcHubServicesClient) (* the deferred g.mu.Unlock() *)
| PDone (r : result GrpcHubServicesClient).  (* Dial has returned r *)

Record Caller : Type := MkCaller { target : string; at_ : pc }.

Record Pool : Type :=
  MkPool
    { conns : gmap string ClientConn;        (* g.grpcConns *)
      writer : option nat;                   (* the caller inside Lock/Unlock *)
      readers : gset nat;                    (* the callers inside RLock/RUnlock *)
      dialed : list (string * ClientConn);   (* connections grpc.Dial has opened *)
      dial_errors : nat }.                   (* failed grpc.Dial calls *)

Record State : Type := MkState { pool : Pool; callers : list Caller }.

Definition in_write (c : pc) : bool :=
  match c with
  | PRecheck | PDial | PStore _ | PUnlock _ => true
  | _ => false
  end.

Definition in_read (c : pc) : bool :=
  match c with
  | PRead | PRUnlock _ => true
  | _ => false
  end.

Definition is_done (c : pc) : bool :=
  match c with PDone _ => true | _ => false end.

(** The connections opened so far for target [t]. *)
Definition made_for (t : string) (p : Pool) : list ClientConn :=
  omap (λ d, if String.eqb (fst d) t then Some (snd d) else None) (dialed p).

(** [grpc.Dial] hands out a connection that did not exist before. *)
Definition fresh_conn (p : Pool) : ClientConn := {| cc_id := length (dialed p) |}.

(** One step of caller [i].  [outcome] is what [grpc.Dial] answers if
    this step is the dial ([Some e]: it fails with [e]).  [None]: the
    caller is blocked on the mutex, or has returned, or does not exist. *)
Definition step_fn (i : nat) (outcome : option error) (s : State) : option State :=
  let p := pool s in
  match callers s !! i with
  | None => None
  | Some c =>
      let t := target c in
      let go p' c' := Some (MkState p' (<[i := MkCaller t c']> (callers s))) in
      match at_ c with
      | PRLock =>
          match writer p with
          | Some _ => None
          | None =>
              go (MkPool (conns p) (writer p) ({[i]} ∪ readers p) (dialed p) (dial_errors p))
                 PRead
          end
      | PRead => go p (PRUnlock (conns p !! t))
      | PRUnlock r =>
          go (MkPool (conns p) (writer p) (readers p ∖ {[i]}) (dialed p) (dial_errors p))
             (match r with
              | Some cc => PDone (Ok (NewHubServicesClient cc))
              | None => PLock
              end)
      | PLock =>
          match writer p with
          | Some _ => None
          | None =>
              if bool_decide (readers p = ∅)
              then go (MkPool (conns p) (Some i) (readers p) (dialed p) (dial_errors p))
                      PRecheck
              else None
          end
      | PRecheck =>
          go p (match conns p !! t with
                | Some cc => PUnlock (Ok (NewHubServicesClient cc))
                | None => PDial
                end)
      | PDial =>
          match outcome with
          | Some e =>
              go (MkPool (conns p) (writer p) (readers p) (dialed p) (S (dial_errors p)))
                 (PUnlock (Err e))
          | None =>
              let cc := fresh_conn p in
              go (MkPool (conns p) (writer p) (readers p) (dialed p ++ [(t, cc)])
                         (dial_errors p))
                 (PStore cc)
          end
      | PStore cc =>
          go (MkPool (<[t := cc]> (conns p)) (writer p) (readers p) (dialed p)
                     (dial_errors p))
             (PUnlock (Ok (NewHubServicesClient cc)))
      | PUnlock r =>
          go (MkPool (conns p) None (readers p) (dialed p) (dial_errors p)) (PDone r)
      | PDone _ => None
      end
  end.

Definition step (s s' : State) : Prop := ∃ i outcome, step_fn i outcome s = Some s'.

(** A schedule names, step by step, the caller that runs and the answer
    of [grpc.Dial]. *)
Fixpoint run (sched : list (nat * option error)) (s : State) : option State :=
  match sched with
  | [] => Some s
  | (i, outcome) :: rest =>
      match step_fn i outcome s with
      | None => None
      | Some s' => run rest s'
      end
  end.

(** A pool fresh from [NewGRPCDial] and one caller per entry of
    [targets], none of which has started. *)
Definition init (targets : list string) : State :=
  MkState (MkPool ∅ None ∅ [] 0) (map (λ t, MkCaller t PRLock) targets).

Definition all_done (s : State) : Prop :=
  ∀ i c, callers s !! i = Some c → is_done (at_ c) = true.

(** Statements a caller still has to execute, at most. *)
Definition remaining (c : pc) : nat :=
  match c with
  | PRLock => 8 | PRead => 7 | PRUnlock _ => 6 | PLock => 5 | PRecheck => 4
  | PDial => 3 | PStore _ => 2 | PUnlock _ => 1 | PDone _ => 0
  end.

Definition work (s : State) : nat :=
  foldr (λ c n, remaining (at_ c) + n) 0 (callers s).

(** The invariant of the pool under concurrent callers. *)
Definition caller_ok (p : Pool) (i : nat) (c : Caller) : Prop :=
  (in_write (at_ c) = true ↔ writer p = Some i)
  ∧ (in_read (at_ c) = true ↔ i ∈ readers p)
  ∧ match at_ c with
    | PDial => conns p !! target c = None ∧ made_for (target c) p = []
    | PStore cc => conns p !! target c = None ∧ made_for (target c) p = [cc]
    | PRUnlock (Some cc) => conns p !! target c = Some cc
    | PUnlock (Ok cl) | PDone (Ok cl) => conns p !! target c = Some (client_cc cl)
    | PUnlock (Err _) | PDone (Err _) => 0 < dial_errors p
    | _ => True
    end.

Definition pool_ok (p : Pool) (cs : list Caller) : Prop :=
  (∀ i, writer p = Some i → is_Some (cs !! i))
  ∧ (∀ i, i ∈ readers p → is_Some (cs !! i))
  ∧ (is_Some (writer p) → readers p = ∅)
  ∧ ∀ t, match conns p !! t with
         | Some cc => made_for t p = [cc]
         | None =>
             made_for t p = []
             ∨ ∃ i cc, cs !! i = Some (MkCaller t (PStore cc)) ∧ made_for t p = [cc]
         end.

Definition Inv (s : State) : Prop :=
  pool_ok (pool s) (callers s)
  ∧ ∀ i c, callers s !! i = Some c → caller_ok (pool s) i c.

End race.

(** ** Sample inputs used by the examples below *)

Module samples.
Import control.

(** A catalog of three hubs; the second one rejects the update.  The
    outside state is the list of hubs that received the update. *)
Definition three_hubs : Broadcaster (list string) string :=
  {| catalog_Targets := λ w, (["hub1:24402"; "hub2:24402"; "hub3:24402"], w);
     conn := λ tgt w, (Ok tgt, w);
     client_AddServices := λ client _ w,
       if String.eqb client "hub2:24402"
       then (Some (ErrNew "unavailable"), w)
       else (None, w ++ [client]) |}.

Definition update : pb.AccountServices := {| pb.as_payload := "services" |}.

(** A network on which the first [grpc.Dial] fails and later ones
    succeed; the state counts the dial attempts. *)
Definition flaky_Dial (target : string) (opts : list DialOption) (n : nat)
    : result ClientConn * nat :=
  match n with
  | O => (Err (ErrNew "dial failed"), S n)
  | S _ => (Ok {| cc_id := n |}, S n)
  end.

Definition empty_pool : GRPCDial :=
  {| g_token := "tok"; g_cert := None; grpcConns := ∅; tlscfg := {| RootCAs := None |} |}.

(** A verifier that knows three tokens. *)
Definition sample_account : pb.Account :=
  {| pb.Namespace := "/acme"; pb.AccountId := {| pb.SpecString := "01ACCT" |} |}.

Definition sample_token (role : pb.Role) (caps : list string) : token.ValidToken :=
  {| token.Body := {| token.Role := role; token.Account := sample_account;
                      token.Capabilities := caps |} |}.

Definition sample_verifier : token.Verifier :=
  {| token.PublicKey := unit;
     token.CheckTokenED25519 := λ stoken _,
       if String.eqb stoken "control-token" then Ok (sample_token pb.CONTROL [])
       else if String.eqb stoken "agent-token" then Ok (sample_token pb.AGENT ["hzn:serve"])
       else if String.eqb stoken "plain-token" then Ok (sample_token pb.AGENT [])
       else Err (ErrNew "invalid token") |}.

(** An inbound server whose client cannot store anything; the state
    counts the mutations that were tried. *)
Definition failing_inbound : @hub.InboundServer sample_verifier nat :=
  {| hub.Client_TokenPub := tt : @token.PublicKey sample_verifier;
     hub.Client_AddRecentAccountServices := λ _ n, (Some (ErrNew "services lost"), S n);
     hub.Client_AddRecentLabelLinks := λ _ n, (Some (ErrNew "links lost"), S n) |}.

Definition ctx_with (auth : list string) : hub.context :=
  Some {["authorization" := auth]}.

Definition links : pb.LabelLinks := {| pb.ll_payload := "links" |}.

(** A hub, services and peers for the handshake. *)
Definition sample_hub : @hub.Hub sample_verifier :=
  {| hub.id := {| pb.SpecString := "01HUB" |};
     hub.cc_TokenPub := tt : @token.PublicKey sample_verifier |}.

Definition svc (sid : string) : pb.ServiceInfo :=
  {| pb.ServiceId := {| pb.SpecString := sid |};
     pb.Type_ := "http";
     pb.Labels := ["env=prod"];
     pb.Metadata := [] |}.

(** A peer that sends a well-formed Preamble with token [tok] and
    services [svcs], opens one stream and disconnects; [add_fails] and
    [remove_fails] tell which control-plane calls fail. *)
Definition script (tok : string) (svcs : list pb.ServiceInfo)
    (add_fails remove_fails : nat → bool) : hub.ConnScript :=
  {| hub.s_NewFramingReader := None;
     hub.s_ReadMarshal :=
       Ok (1%Z, {| pb.Token := tok; pb.SessionId := "session"; pb.Services := svcs |});
     hub.s_Now := (1600000000%Z, 42%Z);
     hub.s_NewFramingWriter := None;
     hub.s_AddService := λ k _,
       if add_fails k then Some (ErrNew "control plane unreachable") else None;
     hub.s_RemoveService := λ k _,
       if remove_fails k then Some (ErrNew "control plane unreachable") else None;
     hub.s_WriteMarshal := λ _ _, None;
     hub.s_yamux_Server := Ok {| hub.sess_id := 7 |};
     hub.s_others := λ _ m, m;
     hub.s_AcceptStream := λ i,
       match i with
       | O => Ok {| hub.StreamID := 1 |}
       | S _ => Err hub.io_EOF
       end;
     hub.s_NewStreamReader := λ _, None;
     hub.s_NewStreamWriter := λ _, None |}.

Definition never : nat → bool := λ _, false.

(** Two callers dial the same address for the first time.  Both miss
    under the read lock; the second caller wins the write lock, dials
    and stores; the first then finds the connection on its re-check. *)
Definition two_callers : list string := ["addr:1234"; "addr:1234"].

Definition both_miss_schedule : list (nat * option error) :=
  [(0, None); (1, None); (0, None); (1, None); (0, None); (1, None);
   (1, None); (1, None); (1, None); (1, None); (1, None);
   (0, None); (0, None); (0, None)].

End samples.

(* ===================================================================== *)
(** * Part II: properties                                                 *)
(* ===================================================================== *)

(** ** Broadcaster *)

Section BroadcastFacts.
Import control.
Context {W C : Type} (b : Broadcaster W C).

(** The loop attempts every target, in order, whatever the outcomes. *)
Lemma advertise_loop_attempts as_ targets top w :
  conn_attempts (advertise_loop b as_ targets top w).2 = targets.
Proof.
  revert top w. induction targets as [|tgt rest IH]; intros top w; simpl; [done|].
  destruct (conn b tgt w) as [[client|err] w1].
  - destruct (client_AddServices b client as_ w1) as [e w2].
    specialize (IH (match e with
                    | Some err => Some (multierror_Append top err)
                    | None => top end) w2).
    destruct (advertise_loop _ _ _ _ w2) as [[res w'] evs]. simpl in *. by f_equal.
  - specialize (IH (Some (multierror_Append top err)) w1).
    destruct (advertise_loop _ _ _ _ w1) as [[res w'] evs]. simpl in *. by f_equal.
Qed.

(** The returned error is [topError] untouched when nothing failed, and
    otherwise the multi-error holding every failure in order. *)
Lemma advertise_loop_result as_ targets top w :
  (advertise_loop b as_ targets top w).1.1
  = match failures (advertise_loop b as_ targets top w).2 with
    | [] => top
    | fs => Some (ErrMulti (flat_top top ++ concat (map multierror_flatten fs)))
    end.
Proof.
  revert top w. induction targets as [|tgt rest IH]; intros top w; simpl; [done|].
  destruct (conn b tgt w) as [[client|err] w1].
  - destruct (client_AddServices b client as_ w1) as [[e|] w2].
    + specialize (IH (Some (multierror_Append top e)) w2).
      destruct (advertise_loop _ _ _ _ w2) as [[res w'] evs]. simpl in *.
      rewrite IH. destruct (failures evs) as [|f fs].
      * by rewrite app_nil_r.
      * simpl. by rewrite <- app_assoc.
    + specialize (IH top w2).
      destruct (advertise_loop _ _ _ _ w2) as [[res w'] evs]. simpl in *. done.
  - specialize (IH (Some (multierror_Append top err)) w1).
    destruct (advertise_loop _ _ _ _ w1) as [[res w'] evs]. simpl in *.
    rewrite IH. destruct (failures evs) as [|f fs].
    + by rewrite app_nil_r.
    + simpl. by rewrite <- app_assoc.
Qed.

(** Every target is either delivered to or accounted for by a failure. *)
Lemma advertise_loop_count as_ targets top w :
  length (delivered (advertise_loop b as_ targets top w).2)
  + length (failures (advertise_loop b as_ targets top w).2) = length targets.
Proof.
  revert top w. induction targets as [|tgt rest IH]; intros top w; simpl; [done|].
  destruct (conn b tgt w) as [[client|err] w1].
  - destruct (client_AddServices b client as_ w1) as [[e|] w2].
    + specialize (IH (Some (multierror_Append top e)) w2).
      destruct (advertise_loop _ _ _ _ w2) as [[res w'] evs]. simpl in *. lia.
    + specialize (IH top w2).
      destruct (advertise_loop _ _ _ _ w2) as [[res w'] evs]. simpl in *. lia.
  - specialize (IH (Some (multierror_Append top err)) w1).
    destruct (advertise_loop _ _ _ _ w1) as [[res w'] evs]. simpl in *. lia.
Qed.

Lemma advertise_loop_delivered as_ targets top w :
  failures (advertise_loop b as_ targets top w).2 = [] →
  delivered (advertise_loop b as_ targets top w).2 = targets.
Proof.
  revert top w. induction targets as [|tgt rest IH]; intros top w; simpl; [done|].
  destruct (conn b tgt w) as [[client|err] w1].
  - destruct (client_AddServices b client as_ w1) as [[e|] w2].
    + destruct (advertise_loop _ _ _ _ w2) as [[res w'] evs]. simpl. done.
    + specialize (IH top w2).
      destruct (advertise_loop _ _ _ _ w2) as [[res w'] evs]. simpl in *.
      intros Hf. by rewrite IH.
  - destruct (advertise_loop _ _ _ _ w1) as [[res w'] evs]. simpl. done.
Qed.

(** C4.  [AdvertiseServices] calls [conn] for every target the catalog
    returned, in order, whatever the earlier outcomes were; the error it
    returns after the loop is the multi-error of all dial and
    remote-call failures, and it is nil exactly when the update was
    delivered to every target. *)
Theorem AdvertiseServices_attempts_all as_ w :
  let targets := (catalog_Targets b w).1 in
  let res := (AdvertiseServices b as_ w).1.1 in
  let evs := (AdvertiseServices b as_ w).2 in
  conn_attempts evs = targets
  ∧ res = match failures evs with
          | [] => None
          | fs => Some (ErrMulti (concat (map multierror_flatten fs)))
          end
  ∧ length (delivered evs) + length (failures evs) = length targets
  ∧ (res = None ↔ delivered evs = targets).
Proof.
  unfold AdvertiseServices. destruct (catalog_Targets b w) as [targets w0]. simpl.
  pose proof (advertise_loop_attempts as_ targets None w0) as Ha.
  pose proof (advertise_loop_result as_ targets None w0) as Hr.
  pose proof (advertise_loop_count as_ targets None w0) as Hc.
  pose proof (advertise_loop_delivered as_ targets None w0) as Hd.
  destruct (advertise_loop b as_ targets None w0) as [[res w'] evs]. simpl in *.
  split; [done|]. split; [done|]. split; [done|].
  rewrite Hr. destruct (failures evs) as [|f fs] eqn:Hf.
  - split; [auto | done].
  - split; [done|]. intros Hall. rewrite Hall in Hc. simpl in Hc. lia.
Qed.

End BroadcastFacts.

(** Three targets, the second fails: the combined error is non-nil and
    the first and third hub have received the update. *)
Example AdvertiseServices_three_hubs :
  control.AdvertiseServices samples.three_hubs samples.update []
  = (Some (ErrMulti [ErrNew "unavailable"]),
     ["hub1:24402"; "hub3:24402"],
     [control.EvInfo "hub broadcasting beginning";
      control.EvInfo "broadcasting hub update";
      control.EvConn "hub1:24402" (Ok "hub1:24402");
      control.EvAddServices "hub1:24402" "hub1:24402" None;
      control.EvInfo "broadcasting hub update";
      control.EvConn "hub2:24402" (Ok "hub2:24402");
      control.EvAddServices "hub2:24402" "hub2:24402" (Some (ErrNew "unavailable"));
      control.EvInfo "broadcasting hub update";
      control.EvConn "hub3:24402" (Ok "hub3:24402");
      control.EvAddServices "hub3:24402" "hub3:24402" None]).
Proof. reflexivity. Qed.


(** ** Connection pool, one caller *)

Section DialFacts.
Import control.
Context {W : Type} (grpc_Dial : string → list DialOption → W → result ClientConn * W).

(** A cached target is answered from the cache, without dialing. *)
Lemma Dial_hit g target cc w :
  grpcConns g !! target = Some cc →
  Dial grpc_Dial g target w = (Ok (NewHubServicesClient cc), g, w, []).
Proof. intros Hc. unfold Dial. by rewrite Hc. Qed.

(** A miss dials once; success stores the connection before returning. *)
Lemma Dial_miss_ok g target cc w w' :
  grpcConns g !! target = None →
  grpc_Dial target (dialOpts g) w = (Ok cc, w') →
  Dial grpc_Dial g target w
  = (Ok (NewHubServicesClient cc), store g target cc, w',
     [EvGrpcDial target (dialOpts g) (Ok cc)]).
Proof. intros Hc Hd. unfold Dial. by rewrite Hc, Hd. Qed.

(** C9.  When [Dial] has to open a connection and [grpc.Dial] fails,
    the caller gets that error back from the same call, the pool is left
    exactly as it was, and a later [Dial] for the same target dials
    again: its outcome is that of the new attempt. *)
Theorem Dial_failure_not_cached g target e w w' :
  grpcConns g !! target = None →
  grpc_Dial target (dialOpts g) w = (Err e, w') →
  Dial grpc_Dial g target w = (Err e, g, w', [EvGrpcDial target (dialOpts g) (Err e)])
  ∧ ∀ r w'', grpc_Dial target (dialOpts g) w' = (r, w'') →
      Dial grpc_Dial g target w'
      = match r with
        | Ok cc => (Ok (NewHubServicesClient cc), store g target cc, w'',
                    [EvGrpcDial target (dialOpts g) r])
        | Err e' => (Err e', g, w'', [EvGrpcDial target (dialOpts g) r])
        end.
Proof.
  intros Hc Hd. split.
  - unfold Dial. by rewrite Hc, Hd.
  - intros r w'' Hd'. unfold Dial. rewrite Hc, Hd'. by destruct r.
Qed.

End DialFacts.

Lemma Dial_failure_not_cached_witness :
  control.Dial samples.flaky_Dial samples.empty_pool "addr:1234" 0
  = (Err (ErrNew "dial failed"), samples.empty_pool, 1,
     [control.EvGrpcDial "addr:1234" (control.dialOpts samples.empty_pool)
        (Err (ErrNew "dial failed"))])
  ∧ control.Dial samples.flaky_Dial samples.empty_pool "addr:1234" 1
    = (Ok (control.NewHubServicesClient {| control.cc_id := 1 |}),
       control.store samples.empty_pool "addr:1234" {| control.cc_id := 1 |}, 2,
       [control.EvGrpcDial "addr:1234" (control.dialOpts samples.empty_pool)
          (Ok {| control.cc_id := 1 |})]).
Proof.
  destruct (Dial_failure_not_cached samples.flaky_Dial samples.empty_pool
              "addr:1234" (ErrNew "dial failed") 0 1) as [H1 H2].
  - reflexivity.
  - reflexivity.
  - split; [exact H1|].
    exact (H2 (Ok {| control.cc_id := 1 |}) 2 eq_refl).
Defined.


(** ** Inbound control-plane server *)

Section InboundFacts.
Import token hub.
Context `{Verifier} {W : Type} (i : InboundServer W).

(** What it takes for the token check to pass. *)
Lemma checkValidToken_nil_iff ctx :
  checkValidToken i ctx = None ↔
  ∃ md auth0 more tok,
    ctx = Some md ∧ md !! "authorization" = Some (auth0 :: more)
    ∧ CheckTokenED25519 auth0 (Client_TokenPub i) = Ok tok
    ∧ Role (Body tok) = pb.CONTROL.
Proof.
  unfold checkValidToken. split.
  - destruct ctx as [md|]; [|done].
    destruct (md !! "authorization") as [[|auth0 more]|] eqn:Hmd; simpl; try done.
    destruct (CheckTokenED25519 auth0 (Client_TokenPub i)) as [tok|] eqn:Hck; [|done].
    destruct (Role (Body tok)) eqn:Hrole; simpl; try done.
    intros _. by exists md, auth0, more, tok.
  - intros (md & auth0 & more & tok & -> & Hmd & Hck & Hrole).
    rewrite Hmd. simpl. by rewrite Hck, Hrole.
Qed.

(** C5, as the code has it.  A context without metadata and metadata
    without an [authorization] value are rejected with the same
    [ErrBadControlToken]; of a multiple-valued entry only the first
    value is looked at, so such an entry is treated exactly like the
    single-valued one; the check passes only for a first value that
    validates to a token of role CONTROL; and when the check fails both
    handlers return its error with the client state untouched and no
    mutation called. *)
Theorem checkValidToken_gate :
  checkValidToken i None = Some ErrBadControlToken
  ∧ (∀ md, default [] (md !! "authorization") = [] →
       checkValidToken i (Some md) = Some ErrBadControlToken)
  ∧ (∀ md auth0 more, md !! "authorization" = Some (auth0 :: more) →
       checkValidToken i (Some md)
       = checkValidToken i (Some (<["authorization" := [auth0]]> md)))
  ∧ (∀ ctx, checkValidToken i ctx = None ↔
       ∃ md auth0 more tok,
         ctx = Some md ∧ md !! "authorization" = Some (auth0 :: more)
         ∧ CheckTokenED25519 auth0 (Client_TokenPub i) = Ok tok
         ∧ Role (Body tok) = pb.CONTROL)
  ∧ (∀ ctx err services labels w, checkValidToken i ctx = Some err →
       AddServices i ctx services w = ((None, Some err), w, [EvDump err])
       ∧ mutations (AddServices i ctx services w).2 = []
       ∧ AddLabeLink i ctx labels w = ((None, Some err), w, [])).
Proof.
  split; [done|]. split; [|split; [|split]].
  - intros md Hmd. unfold checkValidToken. by rewrite Hmd.
  - intros md auth0 more Hmd. unfold checkValidToken.
    by rewrite Hmd, lookup_insert_eq.
  - apply checkValidToken_nil_iff.
  - intros ctx err services labels w Hctx. unfold AddServices, AddLabeLink.
    by rewrite Hctx.
Qed.

(** C10.  Once the token check has passed, [AddLabeLink] answers
    [(Noop, nil)] whatever [AddRecentLabelLinks] returned, also when it
    returned an error, whereas [AddServices] hands the error of
    [AddRecentAccountServices] to its caller. *)
Theorem AddLabeLink_discards_error ctx services labels w :
  checkValidToken i ctx = None →
  (AddLabeLink i ctx labels w).1.1 = (Some pb.MkNoop, None)
  ∧ (AddLabeLink i ctx labels w).2
    = [EvAddRecentLabelLinks labels (Client_AddRecentLabelLinks i labels w).1]
  ∧ (AddServices i ctx services w).1.1
    = (Some pb.MkNoop, (Client_AddRecentAccountServices i services w).1).
Proof.
  intros Hctx. unfold AddLabeLink, AddServices. rewrite Hctx.
  destruct (Client_AddRecentLabelLinks i labels w) as [e1 w1].
  destruct (Client_AddRecentAccountServices i services w) as [e2 w2]. done.
Qed.

End InboundFacts.

Lemma checkValidToken_gate_witness :
  hub.checkValidToken samples.failing_inbound None = Some hub.ErrBadControlToken
  ∧ hub.checkValidToken samples.failing_inbound (samples.ctx_with [])
    = Some hub.ErrBadControlToken
  ∧ hub.AddServices samples.failing_inbound (samples.ctx_with ["agent-token"])
      samples.update 0
    = ((None, Some (ErrWrapf hub.ErrBadControlToken "role was: AGENT")), 0,
       [hub.EvDump (ErrWrapf hub.ErrBadControlToken "role was: AGENT")]).
Proof.
  destruct (checkValidToken_gate samples.failing_inbound) as (H0 & H1 & _ & _ & H4).
  split; [exact H0|]. split.
  - apply H1. reflexivity.
  - apply (H4 (samples.ctx_with ["agent-token"]) _ samples.update samples.links 0).
    reflexivity.
Defined.

(** C5 as stated does not hold: an [authorization] entry with two
    values whose first is a valid CONTROL token passes the check. *)
Lemma checkValidToken_multi_valued_accepted :
  ¬ (∀ (V : token.Verifier) (W : Type) (i : @hub.InboundServer V W) md,
       (1 < length (default [] (md !! "authorization")))%nat →
       hub.checkValidToken i (Some md) = Some hub.ErrBadControlToken).
Proof.
  intros Hclaim.
  specialize (Hclaim samples.sample_verifier nat samples.failing_inbound
                {["authorization" := ["control-token"; "second value"]]}).
  assert (hub.checkValidToken samples.failing_inbound
            (samples.ctx_with ["control-token"; "second value"]) = None) as Hnil
    by reflexivity.
  unfold samples.ctx_with in Hnil. rewrite Hclaim in Hnil; [done|].
  rewrite lookup_singleton_eq. simpl. lia.
Qed.

Lemma AddLabeLink_discards_error_witness :
  (hub.AddLabeLink samples.failing_inbound (samples.ctx_with ["control-token"])
     samples.links 0).1.1 = (Some pb.MkNoop, None)
  ∧ (hub.AddLabeLink samples.failing_inbound (samples.ctx_with ["control-token"])
       samples.links 0).2
    = [hub.EvAddRecentLabelLinks samples.links (Some (ErrNew "links lost"))]
  ∧ (hub.AddServices samples.failing_inbound (samples.ctx_with ["control-token"])
       samples.update 0).1.1
    = (Some pb.MkNoop, Some (ErrNew "services lost")).
Proof.
  apply (AddLabeLink_discards_error samples.failing_inbound
           (samples.ctx_with ["control-token"]) samples.update samples.links 0).
  reflexivity.
Defined.


(** ** The tunnel handshake *)

Section HubFacts.
Import token hub.
Context `{Verifier} (h : Hub) (sc : ConnScript).

Local Abbreviation ReqOf := (ServiceRequest_of h).

Lemma confirmations_app l1 l2 :
  confirmations (l1 ++ l2) = confirmations l1 ++ confirmations l2.
Proof. apply omap_app. Qed.

Lemma add_attempts_app l1 l2 :
  add_attempts (l1 ++ l2) = add_attempts l1 ++ add_attempts l2.
Proof. apply omap_app. Qed.

Lemma registered_app l1 l2 : registered (l1 ++ l2) = registered l1 ++ registered l2.
Proof. apply omap_app. Qed.

Lemma remove_attempts_app l1 l2 :
  remove_attempts (l1 ++ l2) = remove_attempts l1 ++ remove_attempts l2.
Proof. apply omap_app. Qed.

(** *** The registration loop *)

(** The loop either registers every service, or stops at the first
    service whose registration fails; it writes nothing to the peer and
    leaves the active map and the deferred calls alone. *)
Lemma addServices_run vt services k st :
  ∃ evs,
    (addServices h sc vt k services st).2
    = {| active := active st; log := log st ++ evs; defers := defers st |}
    ∧ confirmations evs = [] ∧ remove_attempts evs = []
    ∧ match (addServices h sc vt k services st).1 with
      | Some _ =>
          add_attempts evs = map (ReqOf vt) services
          ∧ registered evs = map (ReqOf vt) services
          ∧ ∀ j serv, services !! j = Some serv →
              s_AddService sc (k + j) (ReqOf vt serv) = None
      | None =>
          ∃ j serv e,
            services !! j = Some serv
            ∧ s_AddService sc (k + j) (ReqOf vt serv) = Some e
            ∧ (∀ j' serv', j' < j → services !! j' = Some serv' →
                 s_AddService sc (k + j') (ReqOf vt serv') = None)
            ∧ add_attempts evs = map (ReqOf vt) (take (S j) services)
            ∧ registered evs = map (ReqOf vt) (take j services)
      end.
Proof.
  revert k st. induction services as [|serv rest IH]; intros k st.
  - exists []. simpl. rewrite app_nil_r. destruct st. repeat split; try done.
  - simpl. unfold bind, emit. simpl.
    destruct (s_AddService sc k (ReqOf vt serv)) as [e|] eqn:Hadd.
    + exists [EvAddService (ReqOf vt serv) (Some e); EvLog LError "error adding services"].
      unfold L_Error, emit, return_, emit_St. simpl. rewrite <- app_assoc. simpl.
      repeat split; try done.
      exists 0, serv, e. rewrite Nat.add_0_r. repeat split; try done.
      intros j' serv' Hlt. lia.
    + destruct (IH (S k) (emit_St (EvAddService (ReqOf vt serv) None) st))
        as (evs & Hst & Hc & Hr & Hres).
      exists (EvAddService (ReqOf vt serv) None :: evs).
      rewrite Hst. simpl. rewrite <- app_assoc. simpl.
      repeat split; try done.
      destruct (addServices h sc vt (S k) rest _).1 as [[]|].
      * destruct Hres as (Ha & Hg & Hall). simpl. rewrite Ha, Hg.
        repeat split; try done.
        intros [|j] serv' Hj; simpl in Hj.
        -- injection Hj as <-. by rewrite Nat.add_0_r.
        -- replace (k + S j) with (S k + j) by lia. by apply Hall.
      * destruct Hres as (j & serv' & e & Hj & Hfail & Hbefore & Ha & Hg).
        exists (S j), serv', e. simpl. rewrite Ha, Hg.
        replace (k + S j) with (S k + j) by lia.
        repeat split; try done.
        intros [|j'] serv'' Hlt Hj'; simpl in Hj'.
        -- injection Hj' as <-. by rewrite Nat.add_0_r.
        -- replace (k + S j') with (S k + j') by lia. apply Hbefore; [lia|done].
Qed.

(** *** The deregistration loop *)

(** Deregistration is attempted for every service, in order, whatever
    the individual calls return. *)
Lemma removeServices_run vt services k st :
  ∃ evs,
    removeServices h sc vt k services st
    = {| active := active st; log := log st ++ evs; defers := defers st |}
    ∧ confirmations evs = [] ∧ add_attempts evs = [] ∧ registered evs = []
    ∧ remove_attempts evs = map (ReqOf vt) services.
Proof.
  revert k st. induction services as [|serv rest IH]; intros k st.
  - exists []. simpl. rewrite app_nil_r. by destruct st.
  - simpl.
    destruct (s_RemoveService sc k (ReqOf vt serv)) as [e|] eqn:Hrem.
    + destruct (IH (S k) (emit_St (EvLog LError "error removing service")
                            (emit_St (EvRemoveService (ReqOf vt serv) (Some e)) st)))
        as (evs & Hst & Hc & Ha & Hg & Hr).
      exists (EvRemoveService (ReqOf vt serv) (Some e)
                :: EvLog LError "error removing service" :: evs).
      rewrite Hst. simpl. rewrite <- !app_assoc. simpl. rewrite Hr.
      repeat split; done.
    + destruct (IH (S k) (emit_St (EvRemoveService (ReqOf vt serv) None) st))
        as (evs & Hst & Hc & Ha & Hg & Hr).
      exists (EvRemoveService (ReqOf vt serv) None :: evs).
      rewrite Hst. simpl. rewrite <- !app_assoc. simpl. rewrite Hr.
      repeat split; done.
Qed.

(** *** The active-session map *)

Lemma insertActive_lookup sess services m k :
  insertActive sess services m !! k
  = if bool_decide (k ∈ service_keys services) then Some sess else m !! k.
Proof.
  revert m. induction services as [|serv rest IH]; intros m; simpl; [done|].
  rewrite IH. clear IH. unfold service_keys. simpl.
  repeat case_bool_decide; try done.
  - set_solver.
  - rewrite lookup_insert. case_decide; [done|]. set_solver.
  - rewrite lookup_insert_ne; [done|]. set_solver.
Qed.

Lemma deleteActive_lookup services m k :
  deleteActive services m !! k
  = if bool_decide (k ∈ service_keys services) then None else m !! k.
Proof.
  revert m. induction services as [|serv rest IH]; intros m; simpl; [done|].
  rewrite IH. clear IH. unfold service_keys. simpl.
  repeat case_bool_decide; try done.
  - set_solver.
  - rewrite lookup_delete. case_decide; [done|]. set_solver.
  - rewrite lookup_delete_ne; [done|]. set_solver.
Qed.

Lemma insertActive_size sess services m :
  NoDup (service_keys services) →
  (∀ k, k ∈ service_keys services → m !! k = None) →
  size (insertActive sess services m) = size m + length services.
Proof.
  revert m. induction services as [|serv rest IH]; intros m Hnd Hfresh; simpl; [lia|].
  unfold service_keys in *. simpl in *. inversion Hnd as [|? ? Hnotin Hnd']; subst.
  rewrite IH; [| done |].
  - rewrite map_size_insert_None; [lia|]. apply Hfresh. set_solver.
  - intros k Hk. rewrite lookup_insert_ne; [|set_solver]. apply Hfresh. set_solver.
Qed.

(** *** Deferred calls *)

Lemma run_defers_app ds1 ds2 st :
  run_defers h sc (ds1 ++ ds2) st = run_defers h sc ds2 (run_defers h sc ds1 st).
Proof. revert st. induction ds1 as [|d ds1 IH]; intros st; simpl; [done|]. apply IH. Qed.

Lemma deferred_removals_plain ds :
  Forall is_plain ds → deferred_removals h ds = [].
Proof. induction 1 as [|[] ds Hd _ IH]; simpl in *; done. Qed.

Lemma deferred_deletes_plain ds m :
  Forall is_plain ds → deferred_deletes ds m = m.
Proof. induction 1 as [|[] ds Hd _ IH]; simpl in *; done. Qed.

Lemma deferred_removals_app ds1 ds2 :
  deferred_removals h (ds1 ++ ds2) = deferred_removals h ds1 ++ deferred_removals h ds2.
Proof.
  induction ds1 as [|[] ds1 IH]; simpl; try done. by rewrite IH, app_assoc.
Qed.

Lemma deferred_deletes_app ds1 ds2 m :
  deferred_deletes (ds1 ++ ds2) m = deferred_deletes ds2 (deferred_deletes ds1 m).
Proof. revert m. induction ds1 as [|[] ds1 IH]; intros m; simpl; done. Qed.

(** Running the deferred calls writes nothing to the peer, registers
    nothing, and deregisters and deletes what was deferred. *)
Lemma run_defers_obs ds st :
  ∃ evs,
    log (run_defers h sc ds st) = log st ++ evs
    ∧ confirmations evs = [] ∧ add_attempts evs = [] ∧ registered evs = []
    ∧ remove_attempts evs = deferred_removals h ds
    ∧ active (run_defers h sc ds st) = deferred_deletes ds (active st).
Proof.
  revert st. induction ds as [|d ds IH]; intros st.
  - exists []. simpl. by rewrite app_nil_r.
  - simpl. destruct d as [|b|vt services|sess|services]; simpl.
    + destruct (IH (emit_St EvConnClose st)) as (evs & Hl & ? & ? & ? & ? & ?).
      exists (EvConnClose :: evs). rewrite Hl. simpl. by rewrite <- app_assoc.
    + destruct (IH (emit_St (EvRecycle b) st)) as (evs & Hl & ? & ? & ? & ? & ?).
      exists (EvRecycle b :: evs). rewrite Hl. simpl. by rewrite <- app_assoc.
    + destruct (removeServices_run vt services 0 st) as (evs0 & Hst & Hc0 & Ha0 & Hg0 & Hr0).
      rewrite Hst.
      destruct (IH {| active := active st; log := log st ++ evs0; defers := defers st |})
        as (evs & Hl & Hc & Ha & Hg & Hr & Hact).
      exists (evs0 ++ evs). rewrite Hl. simpl.
      rewrite confirmations_app, add_attempts_app, registered_app, remove_attempts_app.
      rewrite Hc0, Ha0, Hg0, Hr0, Hc, Ha, Hg, Hr, Hact. simpl.
      by rewrite <- app_assoc.
    + destruct (IH (emit_St (EvSessClose sess) st)) as (evs & Hl & ? & ? & ? & ? & ?).
      exists (EvSessClose sess :: evs). rewrite Hl. simpl. by rewrite <- app_assoc.
    + destruct (IH (set_active (deleteActive services) st))
        as (evs & Hl & ? & ? & ? & ? & ?).
      exists evs. by rewrite Hl.
Qed.

(** The connection is closed last. *)
Lemma run_defers_closes ds st :
  last (log (run_defers h sc (ds ++ [DConnClose]) st)) = Some EvConnClose.
Proof. rewrite run_defers_app. simpl. apply last_snoc. Qed.

(** *** The accept loop *)

(** While streams are accepted nothing is written on the framed
    connection and nothing is (de)registered; the loop only adds
    deferred buffer releases. *)
Lemma acceptLoop_obs fuel i st st2 :
  acceptLoop sc fuel i st = Some st2 →
  ∃ evs ds,
    log st2 = log st ++ evs ∧ quiet evs
    ∧ defers st2 = ds ++ defers st ∧ Forall is_plain ds.
Proof.
  revert i st. induction fuel as [|fuel IH]; intros i st; simpl; [done|].
  assert (∀ msg lvl st0, quiet [EvLog lvl msg] ∧ log (emit_St (EvLog lvl msg) st0)
                         = log st0 ++ [EvLog lvl msg]) as Hlog by (by repeat split).
  destruct (s_AcceptStream sc i) as [stream|err].
  - destruct (s_NewStreamReader sc i) as [e1|].
    { intros Hloop. apply IH in Hloop as (evs & ds & Hl & Hq & Hd & Hp).
      exists ([EvLog LTrace "stream accepted"; EvLog LError "error creating frame reader"]
                ++ evs), ds.
      simpl in *. rewrite Hl, <- !app_assoc. repeat split; try done; apply Hq. }
    destruct (s_NewStreamWriter sc i) as [e2|].
    { intros Hloop. apply IH in Hloop as (evs & ds & Hl & Hq & Hd & Hp).
      exists ([EvLog LTrace "stream accepted"; EvLog LError "error creating framing writer"]
                ++ evs), (ds ++ [DRecycle (StreamReader stream)]).
      simpl in *. rewrite Hl, Hd, <- !app_assoc. repeat split; try done; try apply Hq.
      apply Forall_app. split; [done|]. by constructor. }
    intros Hloop. apply IH in Hloop as (evs & ds & Hl & Hq & Hd & Hp).
    exists ([EvLog LTrace "stream accepted"; EvLog LTrace "accepted yamux session";
             EvGo stream] ++ evs),
           (ds ++ [DRecycle (StreamWriter stream); DRecycle (StreamReader stream)]).
    simpl in *. rewrite Hl, Hd, <- !app_assoc. repeat split; try done; try apply Hq.
    apply Forall_app. split; [done|]. by repeat constructor.
  - intros [= <-]. eexists [_], []. simpl. repeat split; try done.
    all: by destruct (is_EOF err).
Qed.

(** The loop ends as soon as [AcceptStream] reports an error: with the
    [n]-th answer an error, [n + 1] iterations suffice. *)
Lemma acceptLoop_returns n e fuel i st :
  s_AcceptStream sc (i + n) = Err e → n < fuel →
  is_Some (acceptLoop sc fuel i st).
Proof.
  revert fuel i st. induction n as [|n IH]; intros fuel i st Herr Hlt.
  - destruct fuel as [|fuel]; [lia|]. simpl. rewrite Nat.add_0_r in Herr.
    by rewrite Herr.
  - destruct fuel as [|fuel]; [lia|]. simpl.
    replace (i + S n) with (S i + n) in Herr by lia.
    destruct (s_AcceptStream sc i); [|done].
    destruct (s_NewStreamReader sc i); [apply IH; [done|lia]|].
    destruct (s_NewStreamWriter sc i); apply IH; (done || lia).
Qed.

(** *** From registration to Active *)

Lemma registering_obs p vt wc st :
  let r := (registering h sc p vt wc st).1 in
  let st1 := (registering h sc p vt wc st).2 in
  let svcs := pb.Services p in
  ∃ evs,
    log st1 = log st ++ evs ∧ remove_attempts evs = []
    ∧ ((∃ j, first_failure h sc vt svcs j
             ∧ r = None ∧ active st1 = active st ∧ defers st1 = defers st
             ∧ confirmations evs = []
             ∧ add_attempts evs = map (ReqOf vt) (take (S j) svcs)
             ∧ registered evs = map (ReqOf vt) (take j svcs))
       ∨ (all_registered h sc vt svcs
          ∧ add_attempts evs = map (ReqOf vt) svcs
          ∧ registered evs = map (ReqOf vt) svcs
          ∧ confirmations evs = [wc]
          ∧ ((r = None ∧ active st1 = active st
              ∧ defers st1 = DRemoveServices vt svcs :: defers st
              ∧ (is_Some (s_WriteMarshal sc 1 wc) ∨ ∃ e, s_yamux_Server sc = Err e))
             ∨ (∃ sess, s_WriteMarshal sc 1 wc = None ∧ s_yamux_Server sc = Ok sess
                  ∧ r = Some (p, vt, sess)
                  ∧ active st1 = insertActive sess svcs (active st)
                  ∧ defers st1 = DDeleteActive svcs :: DSessClose sess
                                   :: DRemoveServices vt svcs :: defers st)))).
Proof.
  intros r st1 svcs. subst r st1 svcs. unfold registering, bind.
  destruct (addServices_run vt (pb.Services p) 0 st) as (evs & Hst & Hc & Hr & Hres).
  destruct (addServices h sc vt 0 (pb.Services p) st) as [[[]|] sta]; simpl in *; subst sta.
  - destruct Hres as (Ha & Hg & Hall).
    unfold WriteMarshal, bind, emit, defer, L_Error, ret, return_, modify_active. simpl.
    destruct (s_WriteMarshal sc 1 wc) as [e|] eqn:Hw; simpl.
    + eexists (evs ++ [_; _]). rewrite <- !app_assoc. simpl. split; [done|].
      rewrite remove_attempts_app, add_attempts_app, registered_app, confirmations_app.
      rewrite Hr, Ha, Hg, Hc. simpl. rewrite !app_nil_r. split; [done|].
      right. repeat split; try done. left. repeat split; try done. by left.
    + destruct (s_yamux_Server sc) as [sess|e] eqn:Hy; simpl.
      * eexists (evs ++ [_; _]). rewrite <- !app_assoc. simpl. split; [done|].
        rewrite remove_attempts_app, add_attempts_app, registered_app, confirmations_app.
        rewrite Hr, Ha, Hg, Hc. simpl. rewrite !app_nil_r. split; [done|].
        right. repeat split; try done. right. by exists sess.
      * eexists (evs ++ [_; _; _]). rewrite <- !app_assoc. simpl. split; [done|].
        rewrite remove_attempts_app, add_attempts_app, registered_app, confirmations_app.
        rewrite Hr, Ha, Hg, Hc. simpl. rewrite !app_nil_r. split; [done|].
        right. repeat split; try done. left. repeat split; try done. right. by exists e.
  - destruct Hres as (j & serv & e & Hj & Hfail & Hbefore & Ha & Hg).
    exists evs. repeat split; try done. left. exists j. repeat split; try done.
    by exists serv, e.
Qed.

(** *** From accept to the token decision *)

Lemma handshake_obs act :
  let hs := handshake h sc (init_St act) in
  (hs.1 = None ∧ active hs.2 = act ∧ quiet (log hs.2)
   ∧ (∃ ds, defers hs.2 = ds ++ [DConnClose] ∧ Forall is_plain ds)
   ∧ (is_Some (s_NewFramingReader sc)
      ∨ (∃ e, s_ReadMarshal sc = Err e)
      ∨ (∃ tag p, s_ReadMarshal sc = Ok (tag, p) ∧ tag ≠ 1%Z)
      ∨ is_Some (s_NewFramingWriter sc)))
  ∨ (∃ p wc,
       s_NewFramingReader sc = None ∧ s_ReadMarshal sc = Ok (1%Z, p)
       ∧ s_NewFramingWriter sc = None
       ∧ spec_status (ValidateToken h (pb.Token p)) (pb.Services p) ≠ "connected"
       ∧ pb.Status wc = spec_status (ValidateToken h (pb.Token p)) (pb.Services p)
       ∧ hs.1 = None ∧ active hs.2 = act
       ∧ confirmations (log hs.2) = [wc] ∧ add_attempts (log hs.2) = []
       ∧ registered (log hs.2) = [] ∧ remove_attempts (log hs.2) = []
       ∧ defers hs.2 = [DRecycle ConnReader; DConnClose])
  ∨ (∃ p vt wc,
       s_NewFramingReader sc = None ∧ s_ReadMarshal sc = Ok (1%Z, p)
       ∧ s_NewFramingWriter sc = None
       ∧ ValidateToken h (pb.Token p) = Ok vt
       ∧ spec_status (Ok vt) (pb.Services p) = "connected"
       ∧ pb.Status wc = "connected"
       ∧ hs = registering h sc p vt wc
                {| active := act; log := [EvRecycle ConnWriter];
                   defers := [DRecycle ConnReader; DConnClose] |}).
Proof.
  intros hs. subst hs. unfold handshake, bind, defer, L_Error, emit, return_, init_St.
  simpl.
  destruct (s_NewFramingReader sc) as [e|] eqn:Hfr; simpl.
  { left. repeat split; try done.
    - exists []. by split.
    - left. by eexists. }
  destruct (s_ReadMarshal sc) as [[tag p]|e] eqn:Hrd; simpl; cycle 1.
  { left. repeat split; try done.
    - exists [DRecycle ConnReader]. split; [done|]. by repeat constructor.
    - right. left. by exists e. }
  destruct (Z.eqb_spec tag 1) as [->|Htag]; simpl; cycle 1.
  { left. repeat split; try done.
    - exists [DRecycle ConnReader]. split; [done|]. by repeat constructor.
    - right. right. left. by exists tag, p. }
  destruct (s_NewFramingWriter sc) as [e|] eqn:Hfw; simpl.
  { left. repeat split; try done.
    - exists [DRecycle ConnReader]. split; [done|]. by repeat constructor.
    - do 3 right. by eexists. }
  destruct (ValidateToken h (pb.Token p)) as [vt|e] eqn:Hv; simpl; cycle 1.
  { right. left. eexists p, _. rewrite Hv.
    unfold WriteMarshal, bind, emit, L_Error, ret. simpl.
    destruct (s_WriteMarshal sc 1 _); simpl; repeat split; done. }
  destruct (pb.Services p) as [|s0 svcs] eqn:Hsv; simpl.
  { right. right. eexists p, vt, _. rewrite Hsv. repeat split; done. }
  destruct (HasCapability vt "hzn:serve") eqn:Hcap; simpl.
  { right. right. eexists p, vt, _. rewrite Hsv. repeat split; try done.
    unfold spec_status. by rewrite Hcap, andb_false_r. }
  right. left. eexists p, _. rewrite Hv.
  unfold WriteMarshal, bind, emit, L_Error, ret. simpl.
  rewrite Hsv. unfold spec_status. rewrite Hcap. simpl.
  destruct (s_WriteMarshal sc 1 _); simpl; repeat split; done.
Qed.

(** *** The whole run *)

(** A handshake that has executed [return] ends the run at once. *)
Lemma handleConn_aborted fuel act :
  (handshake h sc (init_St act)).1 = None →
  handleConn h sc fuel act = Some (exit h sc (handshake h sc (init_St act)).2).
Proof.
  unfold handleConn. by destruct (handshake h sc (init_St act)) as [[r|] st1].
Qed.

(** The run returns once the peer has disconnected: if the [n]-th
    [AcceptStream] reports an error, simulating [n + 1] iterations is
    enough. *)
Lemma handleConn_returns n e fuel act :
  s_AcceptStream sc n = Err e → n < fuel → is_Some (handleConn h sc fuel act).
Proof.
  intros Herr Hlt. unfold handleConn.
  destruct (handshake h sc (init_St act)) as [[r|] st1]; [|done].
  destruct (acceptLoop_returns n e fuel 0 st1 Herr Hlt) as [st2 ->]. done.
Qed.

(** What a finished run has done, in terms of the state the handshake
    left: nothing more is written to the peer or registered, and the
    deferred calls pending after the handshake are what is deregistered
    and deleted. *)
Lemma handleConn_obs fuel act st' :
  handleConn h sc fuel act = Some st' →
  let hs := handshake h sc (init_St act) in
  confirmations (log st') = confirmations (log hs.2)
  ∧ add_attempts (log st') = add_attempts (log hs.2)
  ∧ registered (log st') = registered (log hs.2)
  ∧ remove_attempts (log st')
    = remove_attempts (log hs.2) ++ deferred_removals h (defers hs.2)
  ∧ (∃ m, active st' = deferred_deletes (defers hs.2) m
          ∧ (hs.1 = None → m = active hs.2))
  ∧ (∀ ds, defers hs.2 = ds ++ [DConnClose] → last (log st') = Some EvConnClose).
Proof.
  unfold handleConn. simpl.
  destruct (handshake h sc (init_St act)) as [[r|] st1]; simpl.
  - destruct (acceptLoop sc fuel 0 st1) as [st2|] eqn:Hloop; [|done].
    intros [= <-].
    destruct (acceptLoop_obs _ _ _ _ Hloop) as (evs & ds & Hl & (Hc & Ha & Hg & Hr) & Hd & Hp).
    unfold exit.
    destruct (run_defers_obs (defers st2)
                {| active := active st2; log := log st2; defers := [] |})
      as (evs' & Hl' & Hc' & Ha' & Hg' & Hr' & Hact').
    simpl in *.
    assert (∀ ds', defers st1 = ds' ++ [DConnClose] →
              last (log (run_defers h sc (defers st2)
                           {| active := active st2; log := log st2; defers := [] |}))
              = Some EvConnClose) as Hlast.
    { intros ds' Hds'. rewrite Hd, Hds', app_assoc. apply run_defers_closes. }
    rewrite Hact'. revert Hlast. rewrite Hl', Hl. intros Hlast.
    rewrite !confirmations_app, !add_attempts_app, !registered_app, !remove_attempts_app.
    rewrite Hc, Ha, Hg, Hr, Hc', Ha', Hg', Hr', Hd.
    rewrite deferred_removals_app, deferred_deletes_app.
    rewrite (deferred_removals_plain ds), (deferred_deletes_plain ds) by done.
    rewrite !app_nil_r. simpl. repeat split; try done.
    by exists (active st2).
  - intros [= <-]. unfold exit.
    destruct (run_defers_obs (defers st1)
                {| active := active st1; log := log st1; defers := [] |})
      as (evs' & Hl' & Hc' & Ha' & Hg' & Hr' & Hact').
    simpl in *.
    assert (∀ ds', defers st1 = ds' ++ [DConnClose] →
              last (log (run_defers h sc (defers st1)
                           {| active := active st1; log := log st1; defers := [] |}))
              = Some EvConnClose) as Hlast.
    { intros ds' Hds'. rewrite Hds'. apply run_defers_closes. }
    rewrite Hact'. revert Hlast. rewrite Hl'. intros Hlast.
    rewrite !confirmations_app, !add_attempts_app, !registered_app, !remove_attempts_app.
    rewrite Hc', Ha', Hg', Hr'. rewrite !app_nil_r.
    repeat split; try done.
    by exists (active st1).
Qed.

Lemma first_failure_not_all vt svcs j :
  first_failure h sc vt svcs j → all_registered h sc vt svcs → False.
Proof.
  intros (serv & e & Hj & Hfail & _) Hall. specialize (Hall j serv Hj). congruence.
Qed.

Lemma spec_status_rejected v svcs :
  spec_status v svcs ≠ "connected" →
  spec_status v svcs = "bad-token" ∨ spec_status v svcs = "bad-token-capability".
Proof.
  unfold spec_status. destruct v as [vt|e]; [|by left].
  destruct (_ && _); [by right|done].
Qed.

(** *** Properties of the handshake *)

(** C1.  When the Preamble frame has been read with tag 1, every
    Confirmation the hub writes carries the status prescribed by the
    token rules ([spec_status]): "bad-token" for a token that fails
    validation, "bad-token-capability" for a valid token without
    hzn:serve when services are advertised, "connected" otherwise.  At
    most one Confirmation is written, and none after the handshake.  A
    rejection is always written; "connected" is written once every
    advertised service is registered, hence always for a valid token
    with an empty services list, whatever its capabilities. *)
Theorem handshake_confirmation_status act p :
  s_NewFramingReader sc = None →
  s_ReadMarshal sc = Ok (1%Z, p) →
  let status := spec_status (ValidateToken h (pb.Token p)) (pb.Services p) in
  let hs := handshake h sc (init_St act) in
  (∀ fuel st', handleConn h sc fuel act = Some st' →
     confirmations (log st') = confirmations (log hs.2))
  ∧ (∀ wc, wc ∈ confirmations (log hs.2) → pb.Status wc = status)
  ∧ (length (confirmations (log hs.2)) ≤ 1)%nat
  ∧ (s_NewFramingWriter sc = None → status ≠ "connected" →
       ∃ wc, confirmations (log hs.2) = [wc] ∧ pb.Status wc = status)
  ∧ (s_NewFramingWriter sc = None →
       ∀ vt, ValidateToken h (pb.Token p) = Ok vt → status = "connected" →
         all_registered h sc vt (pb.Services p) →
         ∃ wc, confirmations (log hs.2) = [wc] ∧ pb.Status wc = "connected")
  ∧ (s_NewFramingWriter sc = None → pb.Services p = [] →
       ∀ vt, ValidateToken h (pb.Token p) = Ok vt →
         ∃ wc, confirmations (log hs.2) = [wc] ∧ pb.Status wc = "connected").
Proof.
  intros Hfr Hrd status hs. split.
  { intros fuel st' Hrun. by destruct (handleConn_obs _ _ _ Hrun) as (? & _). }
  destruct (handshake_obs act) as [Hq | [Hrej | Hreg]].
  - destruct Hq as (_ & _ & (Hc & _) & _ & Hwhy). fold hs in Hc. rewrite Hc.
    assert (s_NewFramingWriter sc = None → False) as Hno.
    { intros Hfw. destruct Hwhy as [[? ?]|[[? ?]|[(tag & p' & ? & ?)|[? ?]]]]; congruence. }
    repeat split; try done; try (intros; exfalso; by apply Hno).
    + intros wc Hwc. by apply elem_of_nil in Hwc.
    + simpl. lia.
  - destruct Hrej as (p' & wc & _ & Hrd' & _ & Hne & Hst & _ & _ & Hc & _).
    assert (p' = p) as -> by congruence. fold hs in Hc. fold status in Hne, Hst.
    rewrite Hc. repeat split; try done.
    + intros wc' Hwc'. apply list_elem_of_singleton in Hwc'. by subst.
    + intros _ _. by exists wc.
    + intros _ Hnil vt Hv. exfalso. apply Hne. unfold status, spec_status.
      by rewrite Hv, Hnil.
  - destruct Hreg as (p' & vt & wc & _ & Hrd' & _ & Hv & Hst & Hwc & Hhs).
    assert (p' = p) as -> by congruence.
    destruct (registering_obs p vt wc
                {| active := act; log := [EvRecycle ConnWriter];
                   defers := [DRecycle ConnReader; DConnClose] |})
      as (evs & Hl & _ & Hcases).
    fold hs in Hhs. rewrite <- Hhs in Hl, Hcases. simpl in Hl, Hcases.
    assert (status = "connected") as Hstatus by (unfold status; by rewrite Hv).
    rewrite Hl, Hstatus. simpl.
    destruct Hcases as [(j & Hfail & _ & _ & _ & Hc & _) | (Hall & _ & _ & Hc & _)];
      rewrite Hc.
    + repeat split; try done.
      * intros wc' Hwc'. by apply elem_of_nil in Hwc'.
      * simpl. lia.
      * intros _ vt' Hv' _ Hall. exfalso.
        assert (vt' = vt) as -> by congruence.
        by eapply first_failure_not_all.
      * intros _ Hnil vt' _. exfalso.
        destruct Hfail as (serv & e & Hj & _). by rewrite Hnil in Hj.
    + repeat split; try done.
      * intros wc' Hwc'. apply list_elem_of_singleton in Hwc'. by subst.
      * intros _ vt' _ _ _. by exists wc.
      * intros _ _ vt' _. by exists wc.
Qed.

(** A handshake that reaches the registration loop. *)
Lemma handshake_registering act p vt :
  s_NewFramingReader sc = None →
  s_ReadMarshal sc = Ok (1%Z, p) →
  s_NewFramingWriter sc = None →
  ValidateToken h (pb.Token p) = Ok vt →
  spec_status (Ok vt) (pb.Services p) = "connected" →
  ∃ wc, pb.Status wc = "connected"
    ∧ handshake h sc (init_St act)
      = registering h sc p vt wc
          {| active := act; log := [EvRecycle ConnWriter];
             defers := [DRecycle ConnReader; DConnClose] |}.
Proof.
  intros Hfr Hrd Hfw Hv Hst.
  destruct (handshake_obs act) as [Hq | [Hrej | Hreg]].
  - destruct Hq as (_ & _ & _ & _ & [[? ?]|[[? ?]|[(tag & p' & ? & ?)|[? ?]]]]); congruence.
  - destruct Hrej as (p' & wc & _ & Hrd' & _ & Hne & _).
    assert (p' = p) as -> by congruence. rewrite Hv in Hne. done.
  - destruct Hreg as (p' & vt' & wc & _ & Hrd' & _ & Hv' & _ & Hwc & Hhs).
    assert (p' = p) as -> by congruence. assert (vt' = vt) as -> by congruence.
    by exists wc.
Qed.

(** C7.  The services of a Preamble are registered one after the other
    in Preamble order.  When the call for service [j] is the first to
    fail, exactly the services up to and including [j] have been tried,
    each once; the handshake returns without reaching Active and without
    writing a Confirmation; the connection is closed; and the
    active-session map is the one the connection found. *)
Theorem registration_error_aborts act p vt :
  s_NewFramingReader sc = None →
  s_ReadMarshal sc = Ok (1%Z, p) →
  s_NewFramingWriter sc = None →
  ValidateToken h (pb.Token p) = Ok vt →
  HasCapability vt "hzn:serve" = true →
  let hs := handshake h sc (init_St act) in
  let svcs := pb.Services p in
  (all_registered h sc vt svcs → add_attempts (log hs.2) = map (ReqOf vt) svcs)
  ∧ ∀ j, first_failure h sc vt svcs j →
      hs.1 = None ∧ active hs.2 = act
      ∧ ∀ fuel, ∃ st',
          handleConn h sc fuel act = Some st'
          ∧ add_attempts (log st') = map (ReqOf vt) (take (S j) svcs)
          ∧ registered (log st') = map (ReqOf vt) (take j svcs)
          ∧ confirmations (log st') = []
          ∧ remove_attempts (log st') = []
          ∧ active st' = act
          ∧ last (log st') = Some EvConnClose.
Proof.
  intros Hfr Hrd Hfw Hv Hcap hs svcs.
  destruct (handshake_registering act p vt) as (wc & Hwc & Hhs); try done.
  { unfold spec_status. by rewrite Hcap, andb_false_r. }
  destruct (registering_obs p vt wc
              {| active := act; log := [EvRecycle ConnWriter];
                 defers := [DRecycle ConnReader; DConnClose] |})
    as (evs & Hl & Hr & Hcases).
  rewrite <- Hhs in Hl, Hcases. fold hs in Hl, Hcases. fold svcs in Hcases.
  cbn [active log defers] in Hl, Hcases.
  destruct Hcases as [(j0 & Hfail0 & Hnone & Hact & Hd & Hc & Ha & Hg)
                     | (Hall & Ha & _)].
  - split.
    { intros Hall. exfalso. by eapply first_failure_not_all. }
    intros j Hfail.
    assert (j = j0) as ->.
    { destruct Hfail as (s1 & e1 & Hj1 & Hf1 & Hb1).
      destruct Hfail0 as (s0 & e0 & Hj0 & Hf0 & Hb0).
      destruct (Nat.lt_trichotomy j j0) as [Hlt|[->|Hlt]]; [|done|].
      - specialize (Hb0 j s1 Hlt Hj1). congruence.
      - specialize (Hb1 j0 s0 Hlt Hj0). congruence. }
    split; [done|]. split; [done|]. intros fuel.
    exists (exit h sc hs.2).
    pose proof (handleConn_aborted fuel act Hnone) as Hrun. fold hs in Hrun.
    split; [done|].
    destruct (handleConn_obs _ _ _ Hrun) as (Hc' & Ha' & Hg' & Hr' & (m & Hm & Hm') & Hlast).
    fold hs in Hc', Ha', Hg', Hr', Hm, Hm', Hlast.
    rewrite Hc', Ha', Hg', Hr', Hm, (Hm' Hnone), Hd, Hl, Hact.
    rewrite confirmations_app, add_attempts_app, registered_app, remove_attempts_app.
    rewrite Hc, Ha, Hg, Hr. repeat split; try done.
    apply (Hlast [DRecycle ConnReader]). by rewrite Hd.
  - split.
    { intros _. rewrite Hl, add_attempts_app. by rewrite Ha. }
    intros j Hfail. exfalso. by eapply first_failure_not_all.
Qed.

(** C3, as the code has it.  When the handshake has registered every
    advertised service, the connection's teardown makes a deregistration
    attempt for every one of them, in Preamble order, whatever the
    individual [RemoveService] calls return; and the teardown does take
    place once [AcceptStream] has reported an error. *)
Theorem teardown_deregisters_all act p vt :
  s_NewFramingReader sc = None →
  s_ReadMarshal sc = Ok (1%Z, p) →
  s_NewFramingWriter sc = None →
  ValidateToken h (pb.Token p) = Ok vt →
  spec_status (Ok vt) (pb.Services p) = "connected" →
  all_registered h sc vt (pb.Services p) →
  (∀ fuel st', handleConn h sc fuel act = Some st' →
     registered (log st') = map (ReqOf vt) (pb.Services p)
     ∧ remove_attempts (log st') = map (ReqOf vt) (pb.Services p))
  ∧ (∀ n e fuel, s_AcceptStream sc n = Err e → n < fuel →
       is_Some (handleConn h sc fuel act)).
Proof.
  intros Hfr Hrd Hfw Hv Hst Hall. split; [|intros n e fuel; apply handleConn_returns].
  intros fuel st' Hrun.
  destruct (handshake_registering act p vt) as (wc & Hwc & Hhs); try done.
  destruct (registering_obs p vt wc
              {| active := act; log := [EvRecycle ConnWriter];
                 defers := [DRecycle ConnReader; DConnClose] |})
    as (evs & Hl & Hr & Hcases).
  rewrite <- Hhs in Hl, Hcases. cbn [active log defers] in Hl, Hcases.
  destruct (handleConn_obs _ _ _ Hrun) as (_ & _ & Hg' & Hr' & _).
  rewrite Hg', Hr', Hl, registered_app, remove_attempts_app, Hr.
  destruct Hcases as [(j & Hfail & _) | (_ & _ & Hg & _ & Hend)].
  { exfalso. by eapply first_failure_not_all. }
  rewrite Hg. split; [done|].
  destruct Hend as [(_ & _ & Hd & _) | (sess & _ & _ & _ & _ & Hd)];
    rewrite Hd; simpl; by rewrite app_nil_r.
Qed.

(** C6, as the code has it.  A handshake that fails always ends with
    the connection closed, and the peer has been sent at most one
    Confirmation:
    - none when a framing buffer cannot be set up, when the Preamble is
      malformed or its tag is not 1, and when a registration fails;
    - one with status "bad-token" or "bad-token-capability" when the
      token is rejected;
    - one with status "connected" when the failure comes after the
      registration loop (the Confirmation cannot be written, or the
      multiplexer cannot be set up). *)
Theorem handshake_failure_visibility act :
  let hs := handshake h sc (init_St act) in
  hs.1 = None →
  ∃ st',
    (∀ fuel, handleConn h sc fuel act = Some st')
    ∧ last (log st') = Some EvConnClose
    ∧ ((confirmations (log st') = []
        ∧ (is_Some (s_NewFramingReader sc)
           ∨ (∃ e, s_ReadMarshal sc = Err e)
           ∨ (∃ tag p, s_ReadMarshal sc = Ok (tag, p) ∧ tag ≠ 1%Z)
           ∨ is_Some (s_NewFramingWriter sc)
           ∨ (∃ p vt j, s_ReadMarshal sc = Ok (1%Z, p)
                ∧ ValidateToken h (pb.Token p) = Ok vt
                ∧ first_failure h sc vt (pb.Services p) j)))
       ∨ (∃ p wc, s_ReadMarshal sc = Ok (1%Z, p)
            ∧ confirmations (log st') = [wc]
            ∧ pb.Status wc = spec_status (ValidateToken h (pb.Token p)) (pb.Services p)
            ∧ (pb.Status wc = "bad-token" ∨ pb.Status wc = "bad-token-capability"))
       ∨ (∃ p vt wc, s_ReadMarshal sc = Ok (1%Z, p)
            ∧ ValidateToken h (pb.Token p) = Ok vt
            ∧ all_registered h sc vt (pb.Services p)
            ∧ confirmations (log st') = [wc]
            ∧ pb.Status wc = "connected"
            ∧ (is_Some (s_WriteMarshal sc 1 wc) ∨ ∃ e, s_yamux_Server sc = Err e))).
Proof.
  intros hs Hnone. exists (exit h sc hs.2).
  assert (∀ fuel, handleConn h sc fuel act = Some (exit h sc hs.2)) as Hrun.
  { intros fuel. by apply handleConn_aborted. }
  split; [done|].
  destruct (handleConn_obs _ _ _ (Hrun 0)) as (Hc' & _ & _ & _ & _ & Hlast).
  fold hs in Hc', Hlast. rewrite Hc'.
  destruct (handshake_obs act) as [Hq | [Hrej | Hreg]].
  - destruct Hq as (_ & _ & (Hc & _) & (ds & Hd & _) & Hwhy). fold hs in Hc, Hd.
    split; [by apply (Hlast ds)|]. left. split; [done|].
    destruct Hwhy as [?|[?|[?|?]]]; auto.
  - destruct Hrej as (p & wc & _ & Hrd & _ & Hne & Hst & _ & _ & Hc & _ & _ & _ & Hd).
    fold hs in Hc, Hd.
    split; [by apply (Hlast [DRecycle ConnReader]); rewrite Hd|].
    right. left. exists p, wc. repeat split; try done.
    rewrite Hst. by apply spec_status_rejected.
  - destruct Hreg as (p & vt & wc & _ & Hrd & _ & Hv & _ & Hwc & Hhs).
    destruct (registering_obs p vt wc
                {| active := act; log := [EvRecycle ConnWriter];
                   defers := [DRecycle ConnReader; DConnClose] |})
      as (evs & Hl & _ & Hcases).
    fold hs in Hhs. rewrite <- Hhs in Hl, Hcases. cbn [active log defers] in Hl, Hcases.
    rewrite Hl, confirmations_app. simpl.
    destruct Hcases as [(j & Hfail & _ & _ & Hd & Hc & _)
                       | (Hall & _ & _ & Hc & [(_ & _ & Hd & Hwhy) | Hact])].
    + split; [by apply (Hlast [DRecycle ConnReader]); rewrite Hd|].
      left. split; [done|]. do 4 right. by exists p, vt, j.
    + split; [by apply (Hlast [DRemoveServices vt (pb.Services p); DRecycle ConnReader]);
              rewrite Hd|].
      right. right. by exists p, vt, wc.
    + destruct Hact as (sess & _ & _ & Hsome & _). congruence.
Qed.

(** C2, as the code has it.  When the handshake reaches Active, every
    advertised service id is a key of the active-session map and maps to
    the session yamux created for this connection, and the other keys
    are as before; these are [N] new entries when the [N] ids are
    pairwise distinct and none was in the map.  When the connection has
    closed, which it has once [AcceptStream] reported an error, none of
    the advertised ids is a key of the map.  A handshake that does not
    reach Active leaves the map as it was. *)
Theorem active_map_lifecycle act :
  let hs := handshake h sc (init_St act) in
  (∀ p vt sess, hs.1 = Some (p, vt, sess) →
     let keys := service_keys (pb.Services p) in
     s_yamux_Server sc = Ok sess
     ∧ (∀ k, k ∈ keys → active hs.2 !! k = Some sess)
     ∧ (∀ k, k ∉ keys → active hs.2 !! k = act !! k)
     ∧ (NoDup keys → (∀ k, k ∈ keys → act !! k = None) →
          size (active hs.2) = size act + length (pb.Services p))
     ∧ (∀ fuel st', handleConn h sc fuel act = Some st' →
          ∀ k, k ∈ keys → active st' !! k = None)
     ∧ (∀ n e fuel, s_AcceptStream sc n = Err e → n < fuel →
          is_Some (handleConn h sc fuel act)))
  ∧ (hs.1 = None →
     active hs.2 = act
     ∧ ∀ fuel, ∃ st', handleConn h sc fuel act = Some st' ∧ active st' = act).
Proof.
  intros hs.
  destruct (handshake_obs act) as [Hq | [Hrej | Hreg]].
  - destruct Hq as (Hnone & Hact & _ & (ds & Hd & Hp) & _).
    fold hs in Hnone, Hact, Hd. split; [intros p vt sess; congruence|].
    intros _. split; [done|]. intros fuel. exists (exit h sc hs.2).
    pose proof (handleConn_aborted fuel act Hnone) as Hrun. fold hs in Hrun.
    split; [done|].
    destruct (handleConn_obs _ _ _ Hrun) as (_ & _ & _ & _ & (m & Hm & Hm') & _).
    fold hs in Hm, Hm'. rewrite Hm, (Hm' Hnone), Hd, Hact.
    apply deferred_deletes_plain. apply Forall_app. split; [done|]. by repeat constructor.
  - destruct Hrej as (p & wc & _ & _ & _ & _ & _ & Hnone & Hact & _ & _ & _ & _ & Hd).
    fold hs in Hnone, Hact, Hd. split; [intros p' vt sess; congruence|].
    intros _. split; [done|]. intros fuel. exists (exit h sc hs.2).
    pose proof (handleConn_aborted fuel act Hnone) as Hrun. fold hs in Hrun.
    split; [done|].
    destruct (handleConn_obs _ _ _ Hrun) as (_ & _ & _ & _ & (m & Hm & Hm') & _).
    fold hs in Hm, Hm'. by rewrite Hm, (Hm' Hnone), Hd, Hact.
  - destruct Hreg as (p & vt & wc & _ & _ & _ & _ & _ & _ & Hhs).
    destruct (registering_obs p vt wc
                {| active := act; log := [EvRecycle ConnWriter];
                   defers := [DRecycle ConnReader; DConnClose] |})
      as (evs & _ & _ & Hcases).
    fold hs in Hhs. rewrite <- Hhs in Hcases. cbn [active log defers] in Hcases.
    assert (∀ ds, hs.1 = None → active hs.2 = act → defers hs.2 = ds →
              deferred_deletes ds act = act →
              ∀ fuel, ∃ st', handleConn h sc fuel act = Some st' ∧ active st' = act)
      as Habort.
    { intros ds Hnone Hact Hd Hdel fuel. exists (exit h sc hs.2).
      pose proof (handleConn_aborted fuel act Hnone) as Hrun. fold hs in Hrun.
      split; [done|].
      destruct (handleConn_obs _ _ _ Hrun) as (_ & _ & _ & _ & (m & Hm & Hm') & _).
      fold hs in Hm, Hm'. by rewrite Hm, (Hm' Hnone), Hd, Hact. }
    destruct Hcases as [(j & _ & Hnone & Hact & Hd & _)
                       | (_ & _ & _ & _ & [(Hnone & Hact & Hd & _) | Hok])].
    + split; [intros p' vt' sess; congruence|]. intros _. split; [done|].
      by eapply Habort.
    + split; [intros p' vt' sess; congruence|]. intros _. split; [done|].
      by eapply Habort.
    + destruct Hok as (sess & _ & Hy & Hsome & Hact & Hd).
      split; [|intros; congruence].
      intros p' vt' sess' Heq keys.
      assert (p' = p ∧ sess' = sess) as [-> ->] by (split; congruence).
      subst keys. rewrite Hact. repeat split.
      * done.
      * intros k Hk. rewrite insertActive_lookup. by rewrite bool_decide_eq_true_2.
      * intros k Hk. rewrite insertActive_lookup. by rewrite bool_decide_eq_false_2.
      * intros Hnd Hfresh. by apply insertActive_size.
      * intros fuel st' Hrun k Hk.
        destruct (handleConn_obs _ _ _ Hrun) as (_ & _ & _ & _ & (m & Hm & _) & _).
        fold hs in Hm. rewrite Hm, Hd. simpl.
        rewrite deleteActive_lookup. by rewrite bool_decide_eq_true_2.
      * intros n e fuel. apply handleConn_returns.
Qed.

End HubFacts.

(** *** The handshake on sample connections *)

Section HubExamples.
Import token hub samples.

Local Abbreviation two_services := [svc "01SVCA"; svc "01SVCB"].
Local Abbreviation second_fails := (λ k : nat, Nat.eqb k 1).
Local Abbreviation first_fails := (λ k : nat, Nat.eqb k 0).

(** A token without hzn:serve that advertises a service is answered
    "bad-token-capability". *)
Lemma handshake_confirmation_status_witness :
  ∃ wc,
    confirmations
      (log (handshake sample_hub (script "plain-token" [svc "01SVCA"] never never)
              (init_St ∅)).2) = [wc]
    ∧ pb.Status wc = "bad-token-capability".
Proof.
  destruct (handshake_confirmation_status sample_hub
              (script "plain-token" [svc "01SVCA"] never never) ∅
              {| pb.Token := "plain-token"; pb.SessionId := "session";
                 pb.Services := [svc "01SVCA"] |} eq_refl eq_refl)
    as (_ & _ & _ & Hrej & _).
  apply Hrej; [reflexivity|]. vm_compute. discriminate.
Defined.

(** The same token with an empty services list is answered "connected". *)
Example handshake_empty_services_connected :
  confirmations
    (log (handshake sample_hub (script "plain-token" [] never never) (init_St ∅)).2)
  = [{| pb.Time := Some {| pb.Sec := 1600000000; pb.Nsec := 42 |};
        pb.Status := "connected" |}].
Proof. reflexivity. Qed.

(** The second of two registrations fails. *)
Lemma registration_error_aborts_witness :
  ∃ st',
    handleConn sample_hub (script "agent-token" two_services second_fails never) 3 ∅
    = Some st'
    ∧ map pb.sr_Id (add_attempts (log st'))
      = [{| pb.SpecString := "01SVCA" |}; {| pb.SpecString := "01SVCB" |}]
    ∧ confirmations (log st') = []
    ∧ active st' = ∅
    ∧ last (log st') = Some EvConnClose.
Proof.
  destruct (registration_error_aborts sample_hub
              (script "agent-token" two_services second_fails never) ∅
              {| pb.Token := "agent-token"; pb.SessionId := "session";
                 pb.Services := two_services |}
              (sample_token pb.AGENT ["hzn:serve"])
              eq_refl eq_refl eq_refl eq_refl eq_refl) as [_ Hfail].
  destruct (Hfail 1) as (_ & _ & Hrun).
  - exists (svc "01SVCB"), (ErrNew "control plane unreachable").
    split; [reflexivity|]. split; [reflexivity|].
    intros [|j'] serv' Hlt Hj'; [reflexivity|lia].
  - destruct (Hrun 3) as (st' & Hst' & Ha & _ & Hc & _ & Hact & Hlast).
    exists st'. split; [exact Hst'|]. rewrite Ha. repeat split; done.
Defined.

(** Both services are registered; the first deregistration fails and
    the second is attempted all the same. *)
Lemma teardown_deregisters_all_witness :
  ∃ st',
    handleConn sample_hub (script "agent-token" two_services never first_fails) 2 ∅
    = Some st'
    ∧ map pb.sr_Id (remove_attempts (log st'))
      = [{| pb.SpecString := "01SVCA" |}; {| pb.SpecString := "01SVCB" |}].
Proof.
  eexists. split; [reflexivity|].
  destruct (teardown_deregisters_all sample_hub
              (script "agent-token" two_services never first_fails) ∅
              {| pb.Token := "agent-token"; pb.SessionId := "session";
                 pb.Services := two_services |}
              (sample_token pb.AGENT ["hzn:serve"])
              eq_refl eq_refl eq_refl eq_refl eq_refl) as [Hrun _].
  - intros j serv Hj. reflexivity.
  - destruct (Hrun 2 _ eq_refl) as [_ Hrem]. rewrite Hrem. reflexivity.
Defined.

(** C3 as stated does not hold: when the second registration fails the
    first service has been registered, and the run ends without any
    deregistration attempt. *)
Lemma registered_service_not_deregistered :
  ¬ (∀ (V : Verifier) (h : @Hub V) (sc : ConnScript) fuel act st',
       handleConn h sc fuel act = Some st' →
       ∀ req, req ∈ registered (log st') → req ∈ remove_attempts (log st')).
Proof.
  intros Hclaim.
  pose (st0 := exit sample_hub (script "agent-token" two_services second_fails never)
                 (handshake sample_hub
                    (script "agent-token" two_services second_fails never)
                    (init_St ∅)).2).
  assert (handleConn sample_hub (script "agent-token" two_services second_fails never)
            1 ∅ = Some st0) as Hrun by reflexivity.
  assert (registered (log st0)
          = [ServiceRequest_of sample_hub (sample_token pb.AGENT ["hzn:serve"])
               (svc "01SVCA")]) as Hreg by reflexivity.
  assert (remove_attempts (log st0) = []) as Hnone by reflexivity.
  specialize (Hclaim _ _ _ _ _ _ Hrun
                (ServiceRequest_of sample_hub (sample_token pb.AGENT ["hzn:serve"])
                   (svc "01SVCA"))).
  rewrite Hreg, Hnone in Hclaim.
  eapply elem_of_nil, Hclaim. apply list_elem_of_here.
Qed.

(** A registration error closes the connection with no Confirmation. *)
Lemma handshake_failure_visibility_witness :
  ∃ st',
    handleConn sample_hub (script "agent-token" two_services second_fails never) 0 ∅
    = Some st'
    ∧ last (log st') = Some EvConnClose
    ∧ confirmations (log st') = [].
Proof.
  destruct (handshake_failure_visibility sample_hub
              (script "agent-token" two_services second_fails never) ∅ eq_refl)
    as (st' & Hrun & Hlast & _).
  exists st'. split; [apply Hrun|]. split; [exact Hlast|].
  specialize (Hrun 0). injection Hrun as <-. reflexivity.
Defined.

(** C6 as stated does not hold: the handshake below fails on a
    registration error; the Preamble was well-formed with tag 1, and no
    Confirmation is written. *)
Lemma registration_error_sends_nothing :
  ¬ (∀ (V : Verifier) (h : @Hub V) (sc : ConnScript) act,
       (handshake h sc (init_St act)).1 = None →
       (∃ wc, wc ∈ confirmations (log (handshake h sc (init_St act)).2)
              ∧ pb.Status wc ≠ "connected")
       ∨ (∃ e, s_ReadMarshal sc = Err e)
       ∨ (∃ tag p, s_ReadMarshal sc = Ok (tag, p) ∧ tag ≠ 1%Z)).
Proof.
  intros Hclaim.
  destruct (Hclaim sample_verifier sample_hub
              (script "agent-token" two_services second_fails never) ∅ eq_refl)
    as [(wc & Hwc & _) | [(e & He) | (tag & p & Hrd & Htag)]].
  - by apply elem_of_nil in Hwc.
  - discriminate He.
  - injection Hrd as <- _. done.
Qed.

(** Two advertised services on a fresh hub. *)
Lemma active_map_lifecycle_witness :
  size (active (handshake sample_hub (script "agent-token" two_services never never)
                  (init_St ∅)).2) = 2
  ∧ ∃ st',
      handleConn sample_hub (script "agent-token" two_services never never) 2 ∅ = Some st'
      ∧ active st' !! "01SVCA" = None ∧ active st' !! "01SVCB" = None.
Proof.
  destruct (active_map_lifecycle sample_hub
              (script "agent-token" two_services never never) ∅) as [Hactive _].
  destruct (Hactive {| pb.Token := "agent-token"; pb.SessionId := "session";
                       pb.Services := two_services |}
              (sample_token pb.AGENT ["hzn:serve"]) {| sess_id := 7 |} eq_refl)
    as (_ & _ & _ & Hsize & Hclosed & _).
  split.
  - rewrite Hsize; [reflexivity | | ].
    + apply (bool_decide_unpack _). vm_compute. exact I.
    + intros k Hk. apply lookup_empty.
  - eexists. split; [reflexivity|].
    split; (eapply (Hclosed 2); [reflexivity|]).
    + apply (bool_decide_unpack _). vm_compute. exact I.
    + apply (bool_decide_unpack _). vm_compute. exact I.
Defined.

(** C2 as stated does not hold: a Preamble that advertises the same
    service id twice reaches Active with one new entry, not two. *)
Lemma duplicate_service_one_entry :
  ¬ (∀ (V : Verifier) (h : @Hub V) (sc : ConnScript) act p vt sess,
       (handshake h sc (init_St act)).1 = Some (p, vt, sess) →
       size (active (handshake h sc (init_St act)).2)
       = size act + length (pb.Services p)).
Proof.
  intros Hclaim.
  specialize (Hclaim sample_verifier sample_hub
                (script "agent-token" [svc "01SVCA"; svc "01SVCA"] never never)
                ∅ _ _ _ eq_refl).
  vm_compute in Hclaim. discriminate Hclaim.
Qed.

End HubExamples.

(** ** Connection pool, concurrent callers *)

Section RaceFacts.
Import control race.
Local Open Scope nat_scope.

Lemma made_for_snoc t t0 cc conns0 w r ds n :
  made_for t (MkPool conns0 w r (ds ++ [(t0, cc)]) n)
  = made_for t (MkPool conns0 w r ds n) ++ (if String.eqb t0 t then [cc] else []).
Proof.
  unfold made_for. simpl. rewrite omap_app. simpl. by destruct (String.eqb t0 t).
Qed.

Lemma insert_lookup_cases (cs : list Caller) i c1 j cj :
  <[i := c1]> cs !! j = Some cj →
  (j = i ∧ cj = c1) ∨ (j ≠ i ∧ cs !! j = Some cj).
Proof.
  intros Hj. destruct (decide (j = i)) as [->|Hne].
  - left. split; [done|].
    destruct (decide (i < length cs)) as [Hlt|Hge].
    + rewrite list_lookup_insert_eq in Hj by done. congruence.
    + rewrite list_insert_ge in Hj by lia.
      apply lookup_lt_Some in Hj. lia.
  - right. split; [done|]. by rewrite list_lookup_insert_ne in Hj.
Qed.

Lemma insert_is_Some (cs : list Caller) i c1 k :
  is_Some (<[i := c1]> cs !! k) ↔ is_Some (cs !! k).
Proof. by rewrite !lookup_lt_is_Some, length_insert. Qed.

(** A step keeps every caller on its own target. *)
Lemma step_fn_targets i o s s' :
  step_fn i o s = Some s' → map target (callers s') = map target (callers s).
Proof.
  unfold step_fn. destruct (callers s !! i) as [c|] eqn:Hi; [|done].
  assert (∀ c', map target (<[i := MkCaller (target c) c']> (callers s))
                = map target (callers s)) as Hins.
  { intros c'. rewrite list_fmap_insert. simpl.
    apply list_insert_id. by rewrite list_lookup_fmap, Hi. }
  destruct (at_ c); repeat case_match; intros [= <-]; simpl; by apply Hins.
Qed.

(** Every step takes its caller one statement closer to its return. *)
Lemma work_insert (cs : list Caller) i c c' :
  cs !! i = Some c → remaining (at_ c') < remaining (at_ c) →
  foldr (λ c n, remaining (at_ c) + n) 0 (<[i := c']> cs)
  < foldr (λ c n, remaining (at_ c) + n) 0 cs.
Proof.
  revert i. induction cs as [|c0 cs IH]; intros i Hi Hlt; [done|].
  destruct i as [|i]; simpl in *.
  - injection Hi as ->. lia.
  - specialize (IH i Hi Hlt). lia.
Qed.

Lemma step_fn_work i o s s' : step_fn i o s = Some s' → work s' < work s.
Proof.
  unfold step_fn, work. destruct (callers s !! i) as [c|] eqn:Hi; [|done].
  destruct (at_ c) eqn:Hat; repeat case_match; intros [= <-]; simpl;
    apply (work_insert _ _ c); try done; rewrite Hat; simpl; lia.
Qed.


(** *** The invariant *)

Lemma Inv_init targets : Inv (init targets).
Proof.
  split.
  - split; [done|]. split; [|split; [done|]].
    + intros i Hi. by apply elem_of_empty in Hi.
    + intros t. simpl. rewrite lookup_empty. by left.
  - intros i c Hi. simpl in Hi. rewrite list_lookup_fmap in Hi.
    destruct (targets !! i); [|done]. injection Hi as <-.
    unfold caller_ok. simpl. repeat split; done.
Qed.

Lemma witness_insert (cs : list Caller) i c c' t' (P : ClientConn → Prop) :
  cs !! i = Some c → (∀ cc, c ≠ MkCaller t' (PStore cc)) →
  (∃ j cc, cs !! j = Some (MkCaller t' (PStore cc)) ∧ P cc) →
  ∃ j cc, <[i := c']> cs !! j = Some (MkCaller t' (PStore cc)) ∧ P cc.
Proof.
  intros Hi Hne (j & cc & Hj & HP). exists j, cc. split; [|done].
  rewrite list_lookup_insert_ne; [done|]. intros ->.
  rewrite Hi in Hj. injection Hj as ->. by eapply Hne.
Qed.

(** The pool-wide part of the invariant when only a caller that is not
    about to store moves and the map and the dial record stay. *)
Lemma pool_map_insert cn w r w' r' ds n n' (cs : list Caller) i c c' :
  cs !! i = Some c → (∀ t' cc, c ≠ MkCaller t' (PStore cc)) →
  (∀ t, match cn !! t with
        | Some cc => made_for t (MkPool cn w r ds n) = [cc]
        | None =>
            made_for t (MkPool cn w r ds n) = []
            ∨ ∃ j cc, cs !! j = Some (MkCaller t (PStore cc))
                      ∧ made_for t (MkPool cn w r ds n) = [cc]
        end) →
  ∀ t, match cn !! t with
       | Some cc => made_for t (MkPool cn w' r' ds n') = [cc]
       | None =>
           made_for t (MkPool cn w' r' ds n') = []
           ∨ ∃ j cc, <[i := c']> cs !! j = Some (MkCaller t (PStore cc))
                     ∧ made_for t (MkPool cn w' r' ds n') = [cc]
       end.
Proof.
  intros Hi Hne Hmap t. specialize (Hmap t). destruct (cn !! t); [done|].
  destruct Hmap as [?|Hwit]; [by left|right].
  by eapply (witness_insert _ _ _ _ _ (λ cc, made_for t (MkPool cn w r ds n) = [cc])).
Qed.

Ltac frame_other Hcallers :=
  match goal with
  | Hj : _ !! ?j = Some ?cj |- caller_ok _ ?j ?cj =>
      let Hother := fresh "Hother" in
      pose proof (Hcallers j cj Hj) as Hother;
      destruct cj as [tj [ | |[?|]| | | |?|[?|?]|[?|?]]];
      unfold caller_ok in *; simpl in *
  end.

(** Every step of every caller preserves the invariant. *)
Lemma step_fn_Inv i o s s' : step_fn i o s = Some s' → Inv s → Inv s'.
Proof.
  destruct s as [p cs]. unfold step_fn. simpl.
  destruct (cs !! i) as [[t c]|] eqn:Hi; [|done]. simpl.
  intros Hstep [Hpool Hcallers].
  pose proof (Hcallers i _ Hi) as Hme.
  destruct Hpool as (Hw & Hr & Hwr & Hmap).
  destruct p as [cn w r ds n]. simpl in *.
  destruct c as [ | |rd| | | |cc|res|res].
  - (* g.mu.RLock() *)
    destruct w as [k|]; [done|]. injection Hstep as <-.
    split.
    + unfold pool_ok. simpl. split; [done|]. split; [|split].
      * intros k Hk. apply insert_is_Some.
        apply elem_of_union in Hk as [Hk|Hk]; [|by apply Hr].
        apply elem_of_singleton in Hk. subst. by rewrite Hi.
      * intros [? ?]. done.
      * by eapply pool_map_insert.
    + simpl. intros j cj Hj. apply insert_lookup_cases in Hj as [[-> ->]|[Hne Hj]].
      * unfold caller_ok in *. simpl in *. repeat split; try done. set_solver.
      * frame_other Hcallers. all: repeat split; try tauto; set_solver.
  - (* the read under the read lock *)
    injection Hstep as <-. split.
    + unfold pool_ok. simpl. split; [|split; [|split]].
      * intros k Hk. apply insert_is_Some. by apply Hw.
      * intros k Hk. apply insert_is_Some. by apply Hr.
      * done.
      * by eapply pool_map_insert.
    + simpl. intros j cj Hj. apply insert_lookup_cases in Hj as [[-> ->]|[Hne Hj]].
      * unfold caller_ok in *. simpl in *. repeat split; try tauto.
        by destruct (cn !! t).
      * by apply Hcallers.
  - (* g.mu.RUnlock() *)
    injection Hstep as <-. split.
    + unfold pool_ok. simpl. split; [|split; [|split]].
      * intros k Hk. apply insert_is_Some. by apply Hw.
      * intros k Hk. apply insert_is_Some. apply Hr. set_solver.
      * intros Hsome. rewrite (Hwr Hsome). set_solver.
      * by eapply pool_map_insert.
    + simpl. intros j cj Hj. apply insert_lookup_cases in Hj as [[-> ->]|[Hne Hj]].
      * unfold caller_ok in *. simpl in *.
        destruct rd; simpl; repeat split; try tauto; set_solver.
      * frame_other Hcallers. all: repeat split; try tauto; set_solver.
  - (* g.mu.Lock() *)
    destruct w as [k|]; [done|]. case_bool_decide as Hempty; [|done].
    injection Hstep as <-. split.
    + unfold pool_ok. simpl. split; [|split; [|split]].
      * intros k [= <-]. apply insert_is_Some. by rewrite Hi.
      * intros k Hk. apply insert_is_Some. by apply Hr.
      * done.
      * by eapply pool_map_insert.
    + simpl. intros j cj Hj. apply insert_lookup_cases in Hj as [[-> ->]|[Hne Hj]].
      * unfold caller_ok in *. simpl in *. repeat split; try tauto; set_solver.
      * frame_other Hcallers. all: repeat split; try tauto; try set_solver; naive_solver.
  - (* the second look at the map, under the write lock *)
    injection Hstep as <-. split.
    + unfold pool_ok. simpl. split; [|split; [|split]].
      * intros k Hk. apply insert_is_Some. by apply Hw.
      * intros k Hk. apply insert_is_Some. by apply Hr.
      * done.
      * by eapply pool_map_insert.
    + simpl. intros j cj Hj. apply insert_lookup_cases in Hj as [[-> ->]|[Hne Hj]].
      * unfold caller_ok in *. simpl in *.
        destruct Hme as (Hwi & Hri & _).
        specialize (Hmap t). destruct (cn !! t) as [cc|] eqn:Hcn; simpl.
        -- repeat split; tauto.
        -- repeat split; try tauto.
           destruct Hmap as [?|(j & cc & Hj & _)]; [done|exfalso].
           destruct (Hcallers j _ Hj) as (Hwj & _). simpl in Hwj.
           assert (j = i) as -> by (destruct Hwi, Hwj; naive_solver).
           congruence.
      * by apply Hcallers.
  - (* grpc.Dial *)
    destruct Hme as (Hwi & Hri & Hcn & Hmade). simpl in *.
    assert (∀ j cj, j ≠ i → cs !! j = Some cj → in_write (at_ cj) = false) as Hexcl.
    { intros j cj Hne Hj. destruct (Hcallers j cj Hj) as (Hwj & _).
      destruct (in_write (at_ cj)); [|done]. destruct Hwi, Hwj. naive_solver. }
    destruct o as [e|]; injection Hstep as <-.
    + split.
      * unfold pool_ok. simpl. split; [|split; [|split]].
        -- intros k Hk. apply insert_is_Some. by apply Hw.
        -- intros k Hk. apply insert_is_Some. by apply Hr.
        -- done.
        -- by eapply pool_map_insert.
      * simpl. intros j cj Hj. apply insert_lookup_cases in Hj as [[-> ->]|[Hne Hj]].
        -- unfold caller_ok. simpl. repeat split; try tauto. lia.
        -- frame_other Hcallers. all: repeat split; try tauto; lia.
    + split.
      * unfold pool_ok. simpl. split; [|split; [|split]].
        -- intros k Hk. apply insert_is_Some. by apply Hw.
        -- intros k Hk. apply insert_is_Some. by apply Hr.
        -- done.
        -- intros t'. rewrite made_for_snoc.
           destruct (String.eqb_spec t t') as [<-|Hne].
           ++ rewrite Hcn. right. exists i, (fresh_conn (MkPool cn w r ds n)).
              rewrite list_lookup_insert_eq by (by eapply lookup_lt_Some).
              split; [done|]. unfold made_for in *. simpl in *. by rewrite Hmade.
           ++ rewrite app_nil_r.
              by eapply (pool_map_insert cn w r w r ds n n cs i (MkCaller t PDial)).
      * simpl. intros j cj Hj. apply insert_lookup_cases in Hj as [[-> ->]|[Hne Hj]].
        -- unfold caller_ok. simpl. repeat split; try tauto.
           rewrite made_for_snoc, String.eqb_refl.
           unfold made_for in *. simpl in *. by rewrite Hmade.
        -- pose proof (Hexcl j cj Hne Hj) as Hnw.
           frame_other Hcallers. all: try done. all: repeat split; tauto.
  - (* g.grpcConns[target] = cc *)
    destruct Hme as (Hwi & Hri & Hcn & Hmade). simpl in *.
    assert (∀ j cj, j ≠ i → cs !! j = Some cj → in_write (at_ cj) = false) as Hexcl.
    { intros j cj Hne Hj. destruct (Hcallers j cj Hj) as (Hwj & _).
      destruct (in_write (at_ cj)); [|done]. destruct Hwi, Hwj. naive_solver. }
    injection Hstep as <-. split.
    + unfold pool_ok. simpl. split; [|split; [|split]].
      * intros k Hk. apply insert_is_Some. by apply Hw.
      * intros k Hk. apply insert_is_Some. by apply Hr.
      * done.
      * intros t'. destruct (decide (t' = t)) as [->|Hne].
        -- rewrite lookup_insert_eq. done.
        -- rewrite lookup_insert_ne by done.
           specialize (Hmap t'). destruct (cn !! t'); [done|].
           destruct Hmap as [?|Hwit]; [by left|right].
           eapply (witness_insert _ _ _ _ _ (λ cc0, made_for t' _ = [cc0])); try done.
           intros cc0 [= -> ->]. done.
    + simpl. intros j cj Hj. apply insert_lookup_cases in Hj as [[-> ->]|[Hne Hj]].
      * unfold caller_ok. simpl. repeat split; try tauto. by rewrite lookup_insert_eq.
      * pose proof (Hexcl j cj Hne Hj) as Hnw.
        frame_other Hcallers. all: try done.
        all: repeat split; try tauto.
        all: rewrite lookup_insert_ne; [tauto|]; intros ->; destruct Hother as (_ & _ & ?);
          congruence.
  - (* the deferred g.mu.Unlock() *)
    destruct Hme as (Hwi & Hri & Hres). simpl in *.
    injection Hstep as <-. split.
    + unfold pool_ok. simpl. split; [|split; [|split]].
      * done.
      * intros k Hk. apply insert_is_Some. by apply Hr.
      * intros [? ?]. done.
      * by eapply pool_map_insert.
    + simpl. intros j cj Hj. apply insert_lookup_cases in Hj as [[-> ->]|[Hne Hj]].
      * unfold caller_ok. simpl. repeat split; try tauto; try done.
      * frame_other Hcallers. all: repeat split; try tauto; try done; naive_solver.
  - done.
Qed.


Lemma run_Inv sched s s' : run sched s = Some s' → Inv s → Inv s'.
Proof.
  revert s. induction sched as [|[i o] sched IH]; intros s; simpl.
  - by intros [= <-].
  - destruct (step_fn i o s) as [s1|] eqn:Hstep; [|done].
    intros Hrun Hinv. eapply IH; [done|]. by eapply step_fn_Inv.
Qed.

Lemma run_targets sched s s' :
  run sched s = Some s' → map target (callers s') = map target (callers s).
Proof.
  revert s. induction sched as [|[i o] sched IH]; intros s; simpl.
  - by intros [= <-].
  - destruct (step_fn i o s) as [s1|] eqn:Hstep; [|done].
    intros Hrun. rewrite (IH _ Hrun). by eapply step_fn_targets.
Qed.

(** A schedule is never longer than the work that was left. *)
Lemma run_work sched s s' : run sched s = Some s' → length sched + work s' ≤ work s.
Proof.
  revert s. induction sched as [|[i o] sched IH]; intros s; simpl.
  - intros [= <-]. lia.
  - destruct (step_fn i o s) as [s1|] eqn:Hstep; [|done].
    intros Hrun. specialize (IH _ Hrun). apply step_fn_work in Hstep. lia.
Qed.

Lemma work_init targets : work (init targets) = 8 * length targets.
Proof. unfold work. simpl. induction targets as [|t ts IH]; simpl; lia. Qed.

(** *** Safety *)

Lemma Inv_one_conn s t : Inv s → length (made_for t (pool s)) ≤ 1.
Proof.
  intros [(_ & _ & _ & Hmap) _]. specialize (Hmap t).
  destruct (conns (pool s) !! t).
  - by rewrite Hmap.
  - destruct Hmap as [->|(j & cc & _ & ->)]; simpl; lia.
Qed.

Lemma Inv_client s i t cl :
  Inv s → callers s !! i = Some (MkCaller t (PDone (Ok cl))) →
  conns (pool s) !! t = Some (client_cc cl) ∧ made_for t (pool s) = [client_cc cl].
Proof.
  intros [(_ & _ & _ & Hmap) Hcallers] Hi.
  destruct (Hcallers _ _ Hi) as (_ & _ & Hcn). simpl in Hcn.
  split; [done|]. specialize (Hmap t). by rewrite Hcn in Hmap.
Qed.

(** *** Progress *)

(** While a caller has not returned, some caller can take a step: the
    holder of the write lock, else a holder of the read lock, else any
    caller that has not returned. *)
Lemma Inv_progress s :
  Inv s → (∃ i c, callers s !! i = Some c ∧ is_done (at_ c) = false) →
  ∃ s', step s s'.
Proof.
  intros [(Hw & Hr & Hwr & _) Hcallers] (i & [t c] & Hi & Hnd).
  assert (∀ k tk ck, callers s !! k = Some (MkCaller tk ck) →
            in_write ck = true ∨ in_read ck = true → ∃ s', step s s') as Hheld.
  { intros k tk ck Hk Hin. unfold step, step_fn.
    destruct ck; simpl in Hin; try (destruct Hin; discriminate).
    all: eexists; exists k, None; rewrite Hk; simpl; reflexivity. }
  destruct (writer (pool s)) as [k|] eqn:Hwriter.
  { destruct (Hw k eq_refl) as [[tk ck] Hk].
    destruct (Hcallers _ _ Hk) as (Hwk & _). simpl in Hwk.
    eapply Hheld; [done|]. left. by apply Hwk. }
  destruct (decide (readers (pool s) = ∅)) as [Hempty|Hne].
  - destruct c; simpl in Hnd; try done.
    all: try (eapply Hheld; [done|]; simpl; by auto).
    + unfold step, step_fn. eexists; exists i, None. rewrite Hi. simpl.
      rewrite Hwriter. reflexivity.
    + unfold step, step_fn. eexists; exists i, None. rewrite Hi. simpl.
      rewrite Hwriter. rewrite bool_decide_eq_true_2 by done. reflexivity.
  - apply set_choose_L in Hne as [k Hk].
    destruct (Hr k Hk) as [[tk ck] Hck].
    destruct (Hcallers _ _ Hck) as (_ & Hrk & _). simpl in Hrk.
    eapply Hheld; [done|]. right. by apply Hrk.
Qed.

(** C8.  Any number of callers run [Dial] concurrently on a pool fresh
    from [NewGRPCDial], interleaved in any order ([sched]).  At every
    moment at most one connection has been opened per target; a caller
    that has been handed a client holds it over the connection stored in
    the pool for its target, which is the only one opened for that
    target; the callers never deadlock and every step brings a return
    nearer (at most eight steps per caller); and once all callers have
    returned with no [grpc.Dial] failure, every caller holds a client
    and exactly one connection exists for its target. *)
Theorem Dial_concurrent_first_use targets sched s :
  run sched (init targets) = Some s →
  (∀ t, length (made_for t (pool s)) ≤ 1)
  ∧ (∀ i t cl, callers s !! i = Some (MkCaller t (PDone (Ok cl))) →
       conns (pool s) !! t = Some (client_cc cl)
       ∧ made_for t (pool s) = [client_cc cl])
  ∧ ((∃ i c, callers s !! i = Some c ∧ is_done (at_ c) = false) → ∃ s', step s s')
  ∧ (∀ s', step s s' → work s' < work s)
  ∧ length sched + work s ≤ 8 * length targets
  ∧ (all_done s → dial_errors (pool s) = 0 →
       ∀ i t, targets !! i = Some t →
         ∃ cc, callers s !! i = Some (MkCaller t (PDone (Ok (NewHubServicesClient cc))))
               ∧ conns (pool s) !! t = Some cc
               ∧ made_for t (pool s) = [cc]).
Proof.
  intros Hrun.
  assert (Inv s) as Hinv by (eapply run_Inv; [done|apply Inv_init]).
  split; [intros t; by apply Inv_one_conn|].
  split; [intros i t cl; by apply Inv_client|].
  split; [by apply Inv_progress|].
  split; [intros s' (i & o & Hstep); by eapply step_fn_work|].
  split; [rewrite <- work_init; by apply run_work|].
  intros Hdone Hnoerr i t Hi.
  pose proof (run_targets _ _ _ Hrun) as Htargets. simpl in Htargets.
  rewrite map_map, map_id in Htargets.
  assert (map target (callers s) !! i = Some t) as Hti by (by rewrite Htargets).
  rewrite list_lookup_fmap in Hti.
  destruct (callers s !! i) as [[t' c]|] eqn:Hci; [|done].
  injection Hti as ->.
  pose proof (Hdone _ _ Hci) as Hd. simpl in Hd.
  destruct c as [ | | | | | | | |[[cc]|e]]; try done.
  - exists cc. split; [done|]. by apply (Inv_client s i t (NewHubServicesClient cc)).
  - destruct Hinv as [_ Hcallers]. destruct (Hcallers _ _ Hci) as (_ & _ & Herr).
    simpl in Herr. lia.
Qed.

End RaceFacts.

(** Two concurrent first-time calls for one address: one connection is
    opened and both callers hold a client over it. *)
Lemma Dial_concurrent_first_use_witness :
  ∃ s,
    race.run samples.both_miss_schedule (race.init samples.two_callers) = Some s
    ∧ race.made_for "addr:1234" (race.pool s) = [{| control.cc_id := 0 |}]
    ∧ race.callers s
      = [race.MkCaller "addr:1234"
           (race.PDone (Ok (control.NewHubServicesClient {| control.cc_id := 0 |})));
         race.MkCaller "addr:1234"
           (race.PDone (Ok (control.NewHubServicesClient {| control.cc_id := 0 |})))].
Proof.
  eexists. split; [vm_compute; reflexivity|].
  match goal with
  | |- context [race.pool ?s] => pose (sfin := s)
  end.
  destruct (Dial_concurrent_first_use samples.two_callers
              samples.both_miss_schedule sfin) as (_ & _ & _ & _ & _ & Hall).
  { vm_compute. reflexivity. }
  assert (race.all_done sfin) as Hdone.
  { intros i c Hi. destruct i as [|[|i]]; simpl in Hi; [| |done];
      injection Hi as <-; reflexivity. }
  destruct (Hall Hdone eq_refl 0 "addr:1234" eq_refl) as (cc & Hc & _ & Hm).
  split; [|reflexivity].
  fold sfin. rewrite Hm. simpl in Hc. injection Hc as <-. reflexivity.
Defined.
